(** * The DNS resolution helpers of [dns/util.go]

    A shallow embedding of the TTL policy, the response-cache insertion,
    the cache-key derivation, the proxy-or-interface dialer and the racing
    resolver, together with the properties the specification states about
    them. *)

From Stdlib Require Import ZArith List String Ascii Bool Lia Permutation.
From Stdlib Require Import DecimalString DecimalN.
From stdpp Require Import base tactics option list.

Import ListNotations.
Local Open Scope Z_scope.

(** ** Machine integers

    [uint32] values are integers in [0, 2^32); subtraction wraps. *)

Definition u32_modulus : Z := 2 ^ 32.

Definition is_u32 (x : Z) : Prop := 0 <= x < u32_modulus.

Definition u32_sub (a b : Z) : Z := (a - b) mod u32_modulus.

(** ** DNS messages (the fields of [miekg/dns] this package touches) *)

Record RR_Header := mkRR_Header {
  Name : string;
  Rrtype : Z;
  Class : Z;
  Ttl : Z;
  Rdlength : Z
}.

(** A resource record: its header and its (opaque) data. *)
Record RR := mkRR {
  Header : RR_Header;
  Rdata : list Z
}.

(** [records[i].Header().Ttl = ttl] *)
Definition set_Ttl (r : RR) (ttl : Z) : RR :=
  let h := Header r in
  mkRR (mkRR_Header (Name h) (Rrtype h) (Class h) ttl (Rdlength h)) (Rdata r).

Definition ttl_of (r : RR) : Z := Ttl (Header r).

Record Question := mkQuestion {
  QName : string;
  Qtype : Z;
  Qclass : Z
}.

Record MsgHdr := mkMsgHdr {
  Id : Z;
  Response : bool;
  Opcode : Z;
  Authoritative : bool;
  Truncated : bool;
  RecursionDesired : bool;
  RecursionAvailable : bool;
  Rcode : Z
}.

(** A message over record references of type [R]: [R := RR] is a message
    read out by value, [R := nat] a message object whose sections hold
    pointers into the record heap. *)
Record Msg_ (R : Type) := mkMsg {
  Hdr : MsgHdr;
  Compress : bool;
  Questions : list Question;
  Answer : list R;
  Ns : list R;
  Extra : list R
}.
Arguments mkMsg {R}.
Arguments Hdr {R}.
Arguments Compress {R}.
Arguments Questions {R}.
Arguments Answer {R}.
Arguments Ns {R}.
Arguments Extra {R}.

Definition Msg := Msg_ RR.

Definition RcodeSuccess : Z := 0.
Definition RcodeServerFailure : Z := 2.
Definition RcodeRefused : Z := 5.

(** ** [samber/lo] helpers *)

(** [lo.MinBy]: the zero value ([None], Go's nil interface) on an empty
    collection; otherwise scan left to right, replacing the current minimum
    by an item whenever [comparison item min] holds. *)
Definition MinBy {T : Type} (collection : list T) (comparison : T -> T -> bool)
  : option T :=
  match collection with
  | [] => None
  | first :: rest =>
      Some (fold_left (fun min item => if comparison item min then item else min)
              rest first)
  end.

(** [lo.Clamp] *)
Definition Clamp (value min max : Z) : Z :=
  if value <? min then min
  else if max <? value then max
  else value.

(** ** TTL policy *)

Definition minTTL (records : list RR) : Z :=
  match MinBy records (fun r1 r2 => ttl_of r1 <? ttl_of r2) with
  | Some minObj => ttl_of minObj
  | None => 0
  end.

(** *** The rewrite by value

    What the TTL rewrite is meant to compute, on the records themselves:
    one new TTL per slice element, from that element's old TTL.  These
    are not the code, which writes through record pointers ([setTTL] and
    [setMsgTTLWithForce] below); code and rewrite by value agree when the
    slice holds no record twice. *)
Definition setTTL_by_value (records : list RR) (ttl : Z) (force : bool) : list RR :=
  if force then
    map (fun r => set_Ttl r ttl) records
  else
    let delta := u32_sub (minTTL records) ttl in
    map (fun r => set_Ttl r (Clamp (u32_sub (ttl_of r) delta) 1 (ttl_of r)))
      records.

Definition setMsgTTLWithForce_by_value (msg : Msg) (ttl : Z) (force : bool) : Msg :=
  mkMsg (Hdr msg) (Compress msg) (Questions msg)
    (setTTL_by_value (Answer msg) ttl force)
    (setTTL_by_value (Ns msg) ttl force)
    (setTTL_by_value (Extra msg) ttl force).

Definition setMsgTTL_by_value (msg : Msg) (ttl : Z) : Msg :=
  setMsgTTLWithForce_by_value msg ttl true.

Definition setMsgMaxTTL_by_value (msg : Msg) (ttl : Z) : Msg :=
  setMsgTTLWithForce_by_value msg ttl false.

(** The record with the given TTL and nothing else of interest. *)
Definition rr_ttl (t : Z) : RR := mkRR (mkRR_Header "" 1 1 t 4) [].


(** ** Message objects on the heap

    Message and record values are pointers.  The heap has one store of
    record cells and one of message cells, addressed by index; a message
    cell holds, per section, the pointers of its records.  Allocation
    appends, so a cell never moves and fresh cells are the ones past the
    old length. *)

Abbreviation loc := nat (only parsing).

Record Heap := mkHeap {
  rrs : list RR;
  msgs : list (Msg_ loc)
}.

Definition load_rrs (h : Heap) (ps : list loc) : option (list RR) :=
  mapM (fun p => rrs h !! p) ps.

(** The message a pointer denotes, read out by value. *)
Definition load (h : Heap) (p : loc) : option Msg :=
  o ← msgs h !! p;
  an ← load_rrs h (Answer o);
  ns ← load_rrs h (Ns o);
  ex ← load_rrs h (Extra o);
  Some (mkMsg (Hdr o) (Compress o) (Questions o) an ns ex).

(** [msg.Answer], read out by value. *)
Definition load_Answer (h : Heap) (p : loc) : option (list RR) :=
  o ← msgs h !! p;
  load_rrs h (Answer o).

(** [Msg.Copy] of [miekg/dns]: a new message cell whose header and
    questions are copied and whose three sections point to newly
    allocated copies of the records (answer, then authority, then
    additional). *)
Definition Copy (h : Heap) (p : loc) : option (loc * Heap) :=
  o ← msgs h !! p;
  an ← load_rrs h (Answer o);
  ns ← load_rrs h (Ns o);
  ex ← load_rrs h (Extra o);
  let base := length (rrs h) in
  let r1 :=
    mkMsg (Hdr o) (Compress o) (Questions o)
      (seq base (length an))
      (seq (base + length an) (length ns))
      (seq (base + length an + length ns) (length ex)) in
  Some (length (msgs h), mkHeap (rrs h ++ an ++ ns ++ ex) (msgs h ++ [r1])).

(** What code holding only the pointers that existed in [h0] can do to
    the later heap [h1]: the cells allocated since [h0] read the same in
    [h2]; every other cell may have been overwritten, and further cells
    may have been allocated. *)
Definition mutated_outside (h0 h1 h2 : Heap) : Prop :=
  (forall p : loc, (length (rrs h0) <= p)%nat ->
                   (p < length (rrs h1))%nat -> rrs h2 !! p = rrs h1 !! p) /\
  (forall p : loc, (length (msgs h0) <= p)%nat ->
                   (p < length (msgs h1))%nat -> msgs h2 !! p = msgs h1 !! p).

(** [records[i].Header().Ttl = ttl] through the pointer [p]. *)
Definition store_Ttl (h : Heap) (p : loc) (ttl : Z) : Heap :=
  match rrs h !! p with
  | Some r => mkHeap (<[p := set_Ttl r ttl]> (rrs h)) (msgs h)
  | None => h
  end.

(** The loop [for i := range records { records[i].Header().Ttl = ... }]
    as it runs on the heap: one write per slice element, through its
    pointer, each reading the cell as the earlier writes left it. *)
Fixpoint update_each (f : RR -> RR) (cells : list RR) (records : list loc)
  : option (list RR) :=
  match records with
  | [] => Some cells
  | p :: rest =>
      r ← cells !! p;
      update_each f (<[p := f r]> cells) rest
  end.

(** [setTTL], on a slice of record pointers: [delta] is computed once,
    before the loop. *)
Definition setTTL (h : Heap) (records : list loc) (ttl : Z) (force : bool)
  : option Heap :=
  if force then
    cells ← update_each (fun r => set_Ttl r ttl) (rrs h) records;
    Some (mkHeap cells (msgs h))
  else
    rs ← load_rrs h records;
    let delta := u32_sub (minTTL rs) ttl in
    cells ← update_each
               (fun r => set_Ttl r (Clamp (u32_sub (ttl_of r) delta) 1 (ttl_of r)))
               (rrs h) records;
    Some (mkHeap cells (msgs h)).

(** [setMsgTTLWithForce], on a message pointer. *)
Definition setMsgTTLWithForce (h : Heap) (msg : loc) (ttl : Z)
    (force : bool) : option Heap :=
  o ← msgs h !! msg;
  h ← setTTL h (Answer o) ttl force;
  h ← setTTL h (Ns o) ttl force;
  setTTL h (Extra o) ttl force.

Definition setMsgTTL (h : Heap) (msg : loc) (ttl : Z) : option Heap :=
  setMsgTTLWithForce h msg ttl true.

Definition setMsgMaxTTL (h : Heap) (msg : loc) (ttl : Z) : option Heap :=
  setMsgTTLWithForce h msg ttl false.

(** ** Time

    Instants and durations are counted in nanoseconds; a [time.Duration]
    is a signed 64-bit integer whose multiplication wraps. *)

Definition i64 (x : Z) : Z := (x + 2 ^ 63) mod 2 ^ 64 - 2 ^ 63.

Definition Second : Z := 1000000000.

Definition Duration_mul (a b : Z) : Z := i64 (a * b).

Definition Time_Add (t d : Z) : Z := t + d.

(** ** The response cache *)

Record entry := mkEntry {
  e_key : string;
  e_value : loc;
  e_expires : Z
}.

(** Modelled from the spec: [common/cache] ([LruCache]) is missing.  A
    capacity-bounded, expiry-aware store whose entries are kept least
    recently used first; the capacity is at least one. *)
Record LruCache := mkLruCache {
  maxSize : positive;
  entries : list entry
}.

Definition has_key (key : string) (e : entry) : bool := String.eqb (e_key e) key.

Definition without (key : string) (es : list entry) : list entry :=
  List.filter (fun e => negb (has_key key e)) es.

(** Modelled from the spec: [LruCache.SetWithExpire] is missing.  The
    entry of the key is replaced and becomes the most recently used one;
    when the cache is over capacity the least recently used entries are
    evicted. *)
Definition SetWithExpire (c : LruCache) (key : string) (value : loc) (expires : Z)
  : LruCache :=
  let es := without key (entries c) ++ [mkEntry key value expires] in
  mkLruCache (maxSize c) (drop (length es - Pos.to_nat (maxSize c)) es).

(** Modelled from the spec: [LruCache.Get] is missing.  A live
    (non-expired) entry is returned and becomes the most recently used
    one; an expired entry is dropped on lookup. *)
Definition Get (now : Z) (c : LruCache) (key : string) : option loc * LruCache :=
  match List.find (has_key key) (entries c) with
  | None => (None, c)
  | Some e =>
      if e_expires e <=? now then
        (None, mkLruCache (maxSize c) (without key (entries c)))
      else
        (Some (e_value e),
         mkLruCache (maxSize c) (without key (entries c) ++ [e]))
  end.

(** [c.SetWithExpire(key, msg.Copy(), time.Now().Add(time.Duration(ttl)*time.Second))] *)
Definition store_copy (now : Z) (h : Heap) (c : LruCache) (key : string)
    (msg : loc) (ttl : Z) : option (Heap * LruCache) :=
  '(cp, h') ← Copy h msg;
  Some (h', SetWithExpire c key cp (Time_Add now (Duration_mul ttl Second))).

(** [None] is the nil-pointer panic of reading [msg.Answer] or copying
    through an invalid pointer. *)
Definition putMsgToCacheWithExpire (now : Z) (h : Heap) (c : LruCache)
    (key : string) (msg : loc) (ttl : Z) : option (Heap * LruCache) :=
  if ttl =? 0 then
    an ← load_Answer h msg;
    let ttl := minTTL an in
    if ttl =? 0 then Some (h, c)
    else store_copy now h c key msg ttl
  else store_copy now h c key msg ttl.

Definition putMsgToCache (now : Z) (h : Heap) (c : LruCache)
    (key : string) (msg : loc) : option (Heap * LruCache) :=
  putMsgToCacheWithExpire now h c key msg 0.

(** ** Formatting *)

(** [%d] of an unsigned integer. *)
Definition fmt_d (n : Z) : string :=
  NilEmpty.string_of_uint (N.to_uint (Z.to_N n)).

(** ** Cache keys *)

(** The request context: the value stored under the selected-proxy key,
    if any. *)
Record Context := mkContext {
  proxy_value : option string
}.

(** Modelled from the spec: [resolver.GetProxy] is missing.  It reads the
    per-request context value carrying the selected proxy name and reports
    whether one is present. *)
Definition GetProxy (ctx : Context) : string * bool :=
  match proxy_value ctx with
  | Some proxy => (proxy, true)
  | None => (""%string, false)
  end.

Definition genMsgCacheKey (ctx : Context) (q : Question) : string :=
  let '(proxy, ok) := GetProxy ctx in
  if ok && negb (String.eqb proxy "") then
    (proxy ++ ":" ++ QName q ++ ":" ++ fmt_d (Qtype q) ++ ":" ++ fmt_d (Qclass q))%string
  else
    (QName q ++ ":" ++ fmt_d (Qtype q) ++ ":" ++ fmt_d (Qclass q))%string.

(** ** Errors *)

#[warnings="-register-all"]
Inductive error :=
| errorString (s : string)
| wrapError (msg : string) (err : error)
| joinError (errs : list error).

Definition newline : string := String (ascii_of_nat 10) EmptyString.

Fixpoint Error (e : error) : string :=
  match e with
  | errorString s => s
  | wrapError msg _ => msg
  | joinError errs => String.concat newline (map Error errs)
  end.

(** [errors.New] *)
Definition errors_New (text : string) : error := errorString text.

(** [errors.Join]: nil arguments are dropped; nil when none is left. *)
Definition errors_Join (errs : list (option error)) : option error :=
  match omap id errs with
  | [] => None
  | es => Some (joinError es)
  end.

(** [errors.Unwrap]: only a single wrapped error is returned. *)
Definition errors_Unwrap (e : error) : option error :=
  match e with
  | wrapError _ err => Some err
  | _ => None
  end.

(** Modelled from the spec: [errors2.Cause] is missing.  The error
    returned on total failure is the aggregate itself, so the cause of an
    error is found by following single wrappings only; a joined error and
    a plain error are their own cause. *)
Fixpoint Cause (e : error) : error :=
  match e with
  | wrapError _ err => Cause err
  | _ => e
  end.

(** [mentions err e]: [e] occurs in [err], as [err] itself or below the
    errors it wraps or joins. *)
Inductive mentions : error -> error -> Prop :=
| mentions_self (e : error) : mentions e e
| mentions_wrapped (msg : string) (err e : error) :
    mentions err e -> mentions (wrapError msg err) e
| mentions_joined (errs : list error) (err e : error) :
    err ∈ errs -> mentions err e -> mentions (joinError errs) e.

(** ** The connection dialer *)

Inductive NetWorkType := TCP | UDP.

(** [netip.Addr]; only its [String()] is used here. *)
Record Addr := mkAddr {
  Addr_String : string
}.

Record Metadata := mkMetadata {
  NetWork : NetWorkType;
  Host : string;
  DstIP : Addr;
  DstPort : string
}.

Inductive dialerOption :=
| WithInterface (name : string)
| WithRoutingMark (mark : Z)
| otherOption (tag : nat).

Inductive PacketConn := mkPacketConn (id : nat).

(** [metadata.UDPAddr()] *)
Definition UDPAddr (metadata : Metadata) : Addr * string :=
  (DstIP metadata, DstPort metadata).

Inductive Conn :=
| netConn (id : nat)
| wrapPacketConn (pc : PacketConn) (rAddr : Addr * string).

(** An outbound proxy adapter, as far as the dialer uses it. *)
Record Proxy := mkProxy {
  proxy_Name : string;
  SupportUDP : bool;
  proxy_DialContext : Metadata -> list dialerOption -> Conn + error;
  ListenPacketContext : Metadata -> list dialerOption -> PacketConn + error
}.

(** The collaborators of the dialer: the proxy registry
    ([tunnel.FindProxyByName]), the policy flag
    ([tunnel.UDPFallbackMatch]) and the low-level dialer
    ([dialer.DialContext]). *)
Record Env := mkEnv {
  FindProxyByName : string -> option Proxy;
  UDPFallbackMatch : bool;
  dialer_DialContext : string -> string -> list dialerOption -> Conn + error
}.

(** What the dialer does to the outside world, in order. *)
Inductive Event :=
| EvDial (network address : string) (opts : list dialerOption)
| EvProxyDial (proxy : string) (metadata : Metadata) (opts : list dialerOption)
| EvListenPacket (proxy : string) (metadata : Metadata) (opts : list dialerOption)
| EvLogDebug (proxy : string) (msg : string).

Definition is_dial (ev : Event) : bool :=
  match ev with
  | EvLogDebug _ _ => false
  | _ => true
  end.

(** Computations that log their events. *)
Definition Eff (A : Type) : Type := list Event * A.

#[global] Instance eff_ret : MRet Eff := fun A a => ([], a).

#[global] Instance eff_bind : MBind Eff := fun A B k m =>
  let '(t1, a) := m in
  let '(t2, b) := k a in
  (t1 ++ t2, b).

Definition dial (env : Env) (network address : string) (opts : list dialerOption)
  : Eff (Conn + error) :=
  ([EvDial network address opts], dialer_DialContext env network address opts).

Definition proxy_dial (proxy : Proxy) (metadata : Metadata) (opts : list dialerOption)
  : Eff (Conn + error) :=
  ([EvProxyDial (proxy_Name proxy) metadata opts],
   proxy_DialContext proxy metadata opts).

Definition listen_packet (proxy : Proxy) (metadata : Metadata)
    (opts : list dialerOption) : Eff (PacketConn + error) :=
  ([EvListenPacket (proxy_Name proxy) metadata opts],
   ListenPacketContext proxy metadata opts).

Definition log_debug (proxy msg : string) : Eff unit :=
  ([EvLogDebug proxy msg], tt).

Fixpoint has_colon (s : string) : bool :=
  match s with
  | EmptyString => false
  | String c rest => Ascii.eqb c ":"%char || has_colon rest
  end.

(** [net.JoinHostPort] *)
Definition JoinHostPort (host port : string) : string :=
  if has_colon host then ("[" ++ host ++ "]:" ++ port)%string
  else (host ++ ":" ++ port)%string.

Definition with_NetWork (metadata : Metadata) (n : NetWorkType) : Metadata :=
  mkMetadata n (Host metadata) (DstIP metadata) (DstPort metadata).

Definition dialContextByProxyOrInterface (env : Env) (network : string)
    (dstIP : Addr) (port : string) (proxyOrInterface : string)
    (opts : list dialerOption) : Eff (Conn + error) :=
  match FindProxyByName env proxyOrInterface with
  | None =>
      let opts := [WithInterface proxyOrInterface; WithRoutingMark 0] in
      r ← dial env network (JoinHostPort (Addr_String dstIP) port) opts;
      match r with
      | inl conn => mret (inl conn)
      | inr err =>
          mret (inr (wrapError
            ("proxy " ++ proxyOrInterface ++ " not found, " ++ Error err)%string
            err))
      end
  | Some proxy =>
      let networkType := if String.eqb network "udp" then UDP else TCP in
      let metadata := mkMetadata networkType "" dstIP port in
      match networkType with
      | UDP =>
          if negb (SupportUDP proxy) then
            if UDPFallbackMatch env then
              mret (inr (errorString
                ("proxy " ++ proxy_Name proxy ++ " UDP is not supported")%string))
            else
              _ ← log_debug (proxy_Name proxy)
                     "[DNS] proxy UDP is not supported, fallback to TCP";
              proxy_dial proxy (with_NetWork metadata TCP) opts
          else
            r ← listen_packet proxy metadata opts;
            match r with
            | inr err => mret (inr err)
            | inl packetConn =>
                mret (inl (wrapPacketConn packetConn (UDPAddr metadata)))
            end
      | TCP => proxy_dial proxy metadata opts
      end
  end.

(** ** The racing resolver *)

(** An upstream client: what its exchange of the query yields in this
    run, a message or a transport error. *)
Record dnsClient := mkClient {
  ExchangeContext : Context -> Msg -> Msg + error
}.

(** Modelled from the spec: [common/picker] is missing.  The picker keeps
    the result of the first attempt that completed without error, cancels
    the shared context at that moment, and collects the failure of every
    attempt that completed with one. *)
Record Picker := mkPicker {
  result : option Msg;
  errs : list error;
  cancelled : bool
}.

(** Modelled from the spec: [picker.WithContext] is missing. *)
Definition WithContext : Picker := mkPicker None [] false.

(** Modelled from the spec: [Picker.Go] is missing.  [complete p out] is
    the picker once an attempt started by [Go] has returned [out]. *)
Definition complete (p : Picker) (out : option Msg * option error) : Picker :=
  match out with
  | (ret, None) =>
      match result p with
      | Some _ => p
      | None => mkPicker ret (errs p) true
      end
  | (_, Some err) => mkPicker (result p) (errs p ++ [err]) (cancelled p)
  end.

(** Modelled from the spec: [Picker.Wait] is missing. *)
Definition Wait (p : Picker) : option Msg := result p.

(** Modelled from the spec: [Picker.Error] is missing; the joined set of
    the individual failures, nil when there is none. *)
Definition Picker_Error (p : Picker) : option error :=
  errors_Join (map Some (errs p)).

(** The function handed to [fast.Go] for the client [r]. *)
Definition attempt (ctx : Context) (m : Msg) (r : dnsClient)
  : option Msg * option error :=
  match ExchangeContext r ctx m with
  | inr fErr => (None, Some fErr)
  | inl mm =>
      if (Rcode (Hdr mm) =? RcodeServerFailure) || (Rcode (Hdr mm) =? RcodeRefused)
      then (None, Some (errors_New "server failure"))
      else (Some mm, None)
  end.

(** The clients in the order in which their attempts complete; [order]
    lists client indices. *)
Definition completion (clients : list dnsClient) (order : list nat)
  : list dnsClient :=
  omap (fun i => clients !! i) order.

(** [batchExchange] for a run whose attempts complete in [order]. *)
Definition batchExchange (ctx : Context) (clients : list dnsClient) (m : Msg)
    (order : list nat) : option Msg * option error :=
  let fast :=
    fold_left complete (map (attempt ctx m) (completion clients order))
      WithContext in
  match Wait fast with
  | None =>
      let err := errors_New "all DNS requests failed" in
      let err :=
        match Picker_Error fast with
        | Some fErr =>
            match errors_Join [Some err; Some fErr] with
            | Some joined => joined
            | None => err
            end
        | None => err
        end in
      (None, Some (Cause err))
  | Some elm => (Some elm, None)
  end.

(** *** The winner-selection policy, in the specification's words *)

Definition acceptable (mm : Msg) : bool :=
  negb (Rcode (Hdr mm) =? RcodeServerFailure) && negb (Rcode (Hdr mm) =? RcodeRefused).

(** The message of a winning attempt; [None] for a non-winning one. *)
Definition winning (ctx : Context) (m : Msg) (r : dnsClient) : option Msg :=
  match ExchangeContext r ctx m with
  | inl mm => if acceptable mm then Some mm else None
  | inr _ => None
  end.

(** The failure a non-winning attempt contributes. *)
Definition failure (ctx : Context) (m : Msg) (r : dnsClient) : option error :=
  match ExchangeContext r ctx m with
  | inl mm => if acceptable mm then None else Some (errorString "server failure")
  | inr fErr => Some fErr
  end.

(** The first winning attempt in completion order. *)
Definition first_winner (ctx : Context) (m : Msg) (done : list dnsClient)
  : option Msg :=
  head (omap (winning ctx m) done).


(** ** Sample data *)

Definition sample_addr : Addr := mkAddr "8.8.8.8".

(** A proxy without UDP support whose stream dial succeeds. *)
Definition tcp_only_proxy : Proxy :=
  mkProxy "Proxy" false
    (fun _ _ => inl (netConn 1))
    (fun _ _ => inr (errorString "unsupported")).

(** A registry that knows [tcp_only_proxy] alone, with the strict policy
    on or off, and a low-level dialer that fails on every interface. *)
Definition sample_env (strict : bool) : Env :=
  mkEnv
    (fun name => if String.eqb name "Proxy" then Some tcp_only_proxy else None)
    strict
    (fun _ _ _ => inr (errorString "no such device")).

Definition sample_hdr : MsgHdr := mkMsgHdr 1 true 0 false false true true 0.

(** Two messages for "example.com.": message 0 answers with TTLs 60 and
    300, message 1 with a single record of TTL 0. *)
Definition sample_heap : Heap :=
  mkHeap
    [rr_ttl 60; rr_ttl 300; rr_ttl 0]
    [mkMsg sample_hdr false [mkQuestion "example.com." 1 1] [0; 1]%nat [] [];
     mkMsg sample_hdr false [mkQuestion "example.com." 1 1] [2]%nat [] []].

Definition empty_cache : LruCache := mkLruCache 4 [].

(** The heap and the cache after message 0 was put under "k" at time 0:
    its copy is message 2, on records 3 and 4. *)
Definition warm_heap : Heap :=
  mkHeap
    [rr_ttl 60; rr_ttl 300; rr_ttl 0; rr_ttl 60; rr_ttl 300]
    [mkMsg sample_hdr false [mkQuestion "example.com." 1 1] [0; 1]%nat [] [];
     mkMsg sample_hdr false [mkQuestion "example.com." 1 1] [2]%nat [] [];
     mkMsg sample_hdr false [mkQuestion "example.com." 1 1] [3; 4]%nat [] []].

Definition warm_cache : LruCache :=
  mkLruCache 4 [mkEntry "k" 2%nat (60 * Second)].

(** The claim about a put whose computed TTL is zero, as the
    specification states it, for one state of heap and cache. *)
Definition put_zero_as_stated (now : Z) (h : Heap) (c : LruCache)
    (key : string) (msg : loc) : Prop :=
  forall m : Msg,
    load h msg = Some m ->
    minTTL (Answer m) = 0 ->
    exists (h' : Heap) (c' : LruCache),
      putMsgToCacheWithExpire now h c key msg 0 = Some (h', c') /\
      fst (Get now c' key) = None.

(** Three upstreams: one refuses, one fails in transport, one answers. *)
Definition sample_query : Msg :=
  mkMsg (mkMsgHdr 1 false 0 false false true false 0) false
    [mkQuestion "example.com." 1 1] [] [] [].

Definition sample_reply (rcode : Z) : Msg :=
  mkMsg (mkMsgHdr 1 true 0 false false true true rcode) false
    [mkQuestion "example.com." 1 1] [rr_ttl 60] [] [].

Definition refusing_client : dnsClient :=
  mkClient (fun _ _ => inl (sample_reply RcodeRefused)).

Definition broken_client : dnsClient :=
  mkClient (fun _ _ => inr (errorString "i/o timeout")).

Definition answering_client : dnsClient :=
  mkClient (fun _ _ => inl (sample_reply RcodeSuccess)).

(** ** Further functions of the package *)

Definition OpcodeQuery : Z := 0.

(** *** Building the upstream clients *)

(** A server configuration, as far as [transform] reads it. *)
Record NameServer := mkNameServer {
  NS_Net : string;
  NS_Addr : string;
  NS_Proxy : string;
  NS_Interface : string;
  NS_IsDHCP : bool
}.

(** An upstream client, represented by the constructor call that builds
    it ([newDoHClient], [newDHCPClient], [newClient]); the resolver is
    passed on as a pointer. *)
Inductive upstream :=
| DoHClient (addr proxy : string) (r : loc)
| DHCPClient (iface : string)
| Client (net addr proxy iface : string) (isDHCP : bool) (r : loc).

(** The loop of [transform]: every iteration appends one client to
    [ret]. *)
Definition transform (servers : list NameServer) (r : loc) : list upstream :=
  fold_left
    (fun ret s =>
       if String.eqb (NS_Net s) "https" then
         ret ++ [DoHClient (NS_Addr s) (NS_Proxy s) r]
       else if String.eqb (NS_Net s) "dhcp" then
         ret ++ [DHCPClient (NS_Addr s)]
       else
         ret ++ [Client (NS_Net s) (NS_Addr s) (NS_Proxy s) (NS_Interface s)
                   (NS_IsDHCP s) r])
    servers [].

(** *** The empty answer *)

(** The header bits of a message that the code above never reads. *)
Record HdrBits := mkHdrBits {
  Zero : bool;
  AuthenticatedData : bool;
  CheckingDisabled : bool
}.

(** A message with all its header bits. *)
Definition FullMsg : Type := Msg * HdrBits.

(** [&D.Msg{}] *)
Definition zero_Msg : FullMsg :=
  (mkMsg (mkMsgHdr 0 false 0 false false false false 0) false [] [] [] [],
   mkHdrBits false false false).

(** [Msg.SetReply] of [miekg/dns] *)
Definition SetReply (dns request : FullMsg) : FullMsg :=
  let '(d, dbits) := dns in
  let '(q, qbits) := request in
  let opcode := Opcode (Hdr q) in
  let rd := if opcode =? OpcodeQuery then RecursionDesired (Hdr q)
            else RecursionDesired (Hdr d) in
  let cd := if opcode =? OpcodeQuery then CheckingDisabled qbits
            else CheckingDisabled dbits in
  (mkMsg
     (mkMsgHdr (Id (Hdr q)) true opcode (Authoritative (Hdr d)) (Truncated (Hdr d))
        rd (RecursionAvailable (Hdr d)) RcodeSuccess)
     (Compress d)
     (match Questions q with
      | [] => Questions d
      | q0 :: _ => [q0]
      end)
     (Answer d) (Ns d) (Extra d),
   mkHdrBits (Zero dbits) (AuthenticatedData dbits) cd).

(** [Msg.SetRcode] of [miekg/dns] *)
Definition SetRcode (dns request : FullMsg) (rcode : Z) : FullMsg :=
  let '(d, dbits) := SetReply dns request in
  let h := Hdr d in
  (mkMsg
     (mkMsgHdr (Id h) (Response h) (Opcode h) (Authoritative h) (Truncated h)
        (RecursionDesired h) (RecursionAvailable h) rcode)
     (Compress d) (Questions d) (Answer d) (Ns d) (Extra d),
   dbits).

Definition handleMsgWithEmptyAnswer (r : FullMsg) : FullMsg :=
  let '(msg, bits) := zero_Msg in
  let msg := mkMsg (Hdr msg) (Compress msg) (Questions msg) [] (Ns msg) (Extra msg) in
  let '(msg, bits) := SetRcode (msg, bits) r RcodeSuccess in
  let h := Hdr msg in
  let h := mkMsgHdr (Id h) (Response h) (Opcode h) true (Truncated h)
             (RecursionDesired h) (RecursionAvailable h) (Rcode h) in
  let h := mkMsgHdr (Id h) (Response h) (Opcode h) (Authoritative h) (Truncated h)
             (RecursionDesired h) true (Rcode h) in
  (mkMsg h (Compress msg) (Questions msg) (Answer msg) (Ns msg) (Extra msg), bits).

(** *** Addresses of an answer *)

(** A record by its dynamic type, which is what the type switches of
    [msgToIP] and [msgToIPStr] look at; an address field is a byte slice,
    [None] the nil slice. *)
Inductive typedRR :=
| RR_A (hdr : RR_Header) (A : option (list Z))
| RR_AAAA (hdr : RR_Header) (AAAA : option (list Z))
| RR_other (r : RR).

Inductive netipAddr :=
| AddrFrom4 (b : list Z)
| AddrFrom16 (b : list Z).

(** [netip.AddrFromSlice]: [None] is [ok = false]. *)
Definition AddrFromSlice (slice : option (list Z)) : option netipAddr :=
  match slice with
  | None => None
  | Some b =>
      if (length b =? 4)%nat then Some (AddrFrom4 b)
      else if (length b =? 16)%nat then Some (AddrFrom16 b)
      else None
  end.

Definition msgToIP (msg : Msg_ typedRR) : list netipAddr :=
  fold_left
    (fun ips answer =>
       match answer with
       | RR_AAAA _ aaaa =>
           match AddrFromSlice aaaa with
           | None => ips
           | Some ip => ips ++ [ip]
           end
       | RR_A _ a =>
           match AddrFromSlice a with
           | None => ips
           | Some ip => ips ++ [ip]
           end
       | RR_other _ => ips
       end)
    (Answer msg) [].

(** [IP_String] stands for [net.IP.String]. *)
Definition msgToIPStr (IP_String : list Z -> string) (msg : Msg_ typedRR)
  : list string :=
  fold_left
    (fun ips answer =>
       match answer with
       | RR_AAAA _ aaaa =>
           match aaaa with
           | None => ips
           | Some b => ips ++ [IP_String b]
           end
       | RR_A _ a =>
           match a with
           | None => ips
           | Some b => ips ++ [IP_String b]
           end
       | RR_other _ => ips
       end)
    (Answer msg) [].

(** The bytes of an address. *)
Definition addr_bytes (ip : netipAddr) : list Z :=
  match ip with
  | AddrFrom4 b => b
  | AddrFrom16 b => b
  end.

(** What one answer contributes: its address slice when it is an A or
    AAAA record, and the address parsed from that slice. *)
Definition answer_slice (answer : typedRR) : option (list Z) :=
  match answer with
  | RR_A _ a => a
  | RR_AAAA _ aaaa => aaaa
  | RR_other _ => None
  end.

Definition answer_ip (answer : typedRR) : option netipAddr :=
  AddrFromSlice (answer_slice answer).

(** *** Stream connections *)

(** The library functions [getTCPConn] calls: [net.SplitHostPort] (whose
    error is dropped; host and port are then empty), [netip.ParseAddr],
    and whether a connection is a [*net.TCPConn]. *)
Record NetLib := mkNetLib {
  SplitHostPort : string -> string * string;
  ParseAddr : string -> Addr + error;
  is_TCPConn : Conn -> bool
}.

Inductive TCPEvent :=
| Dialing (ev : Event)
| SetKeepAlive (c : Conn) (on : bool).

(** [proxy] is the value stored in the context under [proxyKey], if it
    is a string. *)
Definition getTCPConn (env : Env) (lib : NetLib) (proxy : option string)
    (addr : string) : list TCPEvent * (Conn + error) :=
  let dialed :=
    match proxy with
    | Some proxy =>
        let '(host, port) := SplitHostPort lib addr in
        match ParseAddr lib host with
        | inr err1 => inr err1
        | inl ip => inl (dialContextByProxyOrInterface env "tcp" ip port proxy [])
        end
    | None => inl (dial env "tcp" addr [])
    end in
  match dialed with
  | inr err1 => ([], inr err1)
  | inl (events, r) =>
      match r with
      | inl conn =>
          (map Dialing events ++
             (if is_TCPConn lib conn then [SetKeepAlive conn true] else []),
           inl conn)
      | inr err => (map Dialing events, inr err)
      end
  end.

(** ** Rule types ([constant/rule.go]) *)

Module constant.

Definition Domain : Z := 0.
Definition DomainSuffix : Z := 1.
Definition DomainKeyword : Z := 2.
Definition GEOSITE : Z := 3.
Definition GEOIP : Z := 4.
Definition IPCIDR : Z := 5.
Definition SrcIPCIDR : Z := 6.
Definition SrcPort : Z := 7.
Definition DstPort : Z := 8.
Definition InboundPort : Z := 9.
Definition Process : Z := 10.
Definition ProcessPath : Z := 11.
Definition Script : Z := 12.
Definition UserAgent : Z := 13.
Definition IPSet : Z := 14.
Definition MATCH : Z := 15.
Definition Group : Z := 16.

Definition RuleType_String (rt : Z) : string :=
  if rt =? Domain then "Domain"
  else if rt =? DomainSuffix then "DomainSuffix"
  else if rt =? DomainKeyword then "DomainKeyword"
  else if rt =? GEOSITE then "GeoSite"
  else if rt =? GEOIP then "GeoIP"
  else if rt =? IPCIDR then "IPCIDR"
  else if rt =? SrcIPCIDR then "SrcIPCIDR"
  else if rt =? SrcPort then "SrcPort"
  else if rt =? DstPort then "DstPort"
  else if rt =? InboundPort then "InboundPort"
  else if rt =? Process then "Process"
  else if rt =? ProcessPath then "ProcessPath"
  else if rt =? Script then "Script"
  else if rt =? UserAgent then "UserAgent"
  else if rt =? IPSet then "IPSet"
  else if rt =? MATCH then "Match"
  else if rt =? Group then "Group"
  else "Unknown".

End constant.

(** A proxy with UDP support, a registry that knows it alone, with a
    low-level dialer that succeeds, and library functions that know one
    address. *)
Definition udp_proxy : Proxy :=
  mkProxy "Relay" true
    (fun _ _ => inl (netConn 2))
    (fun _ _ => inl (mkPacketConn 7)).

Definition relay_env : Env :=
  mkEnv
    (fun name => if String.eqb name "Relay" then Some udp_proxy else None)
    true
    (fun _ _ _ => inl (netConn 3)).

Definition sample_lib : NetLib :=
  mkNetLib
    (fun addr => if String.eqb addr "8.8.8.8:53" then ("8.8.8.8", "53")%string
                 else (""%string, ""%string))
    (fun host => if String.eqb host "8.8.8.8" then inl sample_addr
                 else inr (errorString "unable to parse IP"))
    (fun c => match c with netConn _ => true | wrapPacketConn _ _ => false end).

(** * Properties *)

(** ** Machine integers *)

Lemma u32_sub_range a b : is_u32 (u32_sub a b).
Proof. unfold is_u32, u32_sub, u32_modulus. apply Z.mod_pos_bound. lia. Qed.

Lemma u32_sub_small a b : 0 <= a - b < u32_modulus -> u32_sub a b = a - b.
Proof. intros H. unfold u32_sub. now apply Z.mod_small. Qed.

(** ** TTL policy *)

Lemma ttl_of_set_Ttl r t : ttl_of (set_Ttl r t) = t.
Proof. reflexivity. Qed.


Lemma Clamp_inside v lo hi : lo <= v <= hi -> Clamp v lo hi = v.
Proof. intros H. unfold Clamp. repeat case_match; lia. Qed.

Lemma scan_min (rest : list RR) (first : RR) :
  let pick := fun min item : RR =>
    if ttl_of item <? ttl_of min then item else min in
  let found := fold_left pick rest first in
  found ∈ first :: rest /\
  Forall (fun r => ttl_of found <= ttl_of r) (first :: rest).
Proof.
  intros pick. revert first. induction rest as [|r rest IH]; intros first; simpl.
  - split; [left | repeat constructor; lia].
  - destruct (IH (pick first r)) as [Hin Hle]. split.
    + apply elem_of_cons in Hin as [-> | Hin].
      * unfold pick. case_match; [right; left | left].
      * right; right; exact Hin.
    + apply Forall_cons in Hle as [Hp Hrest].
      assert (ttl_of (pick first r) <= ttl_of first /\
              ttl_of (pick first r) <= ttl_of r) as [H1 H2]
        by (unfold pick; case_match; lia).
      repeat constructor; [lia | lia | exact Hrest].
Qed.

Lemma minTTL_cons (r : RR) (rs : list RR) :
  minTTL (r :: rs) ∈ map ttl_of (r :: rs) /\
  Forall (fun x => minTTL (r :: rs) <= ttl_of x) (r :: rs).
Proof.
  unfold minTTL, MinBy.
  destruct (scan_min rs r) as [Hin Hle]. split; [|exact Hle].
  apply list_elem_of_fmap. eexists; split; [reflexivity | exact Hin].
Qed.

Lemma minTTL_unique (records : list RR) (x : Z) :
  x ∈ map ttl_of records ->
  Forall (fun r => x <= ttl_of r) records ->
  minTTL records = x.
Proof.
  intros Hin Hle. destruct records as [|r rs].
  - apply elem_of_nil in Hin. contradiction.
  - destruct (minTTL_cons r rs) as [Hin' Hle'].
    apply list_elem_of_fmap in Hin as (a & -> & Ha).
    apply list_elem_of_fmap in Hin' as (b & Hb1 & Hb).
    rewrite Forall_forall in Hle, Hle'.
    specialize (Hle b Hb). specialize (Hle' a Ha). lia.
Qed.

(** C9: [minTTL] of the empty list is the sentinel 0, of a one-record list
    that record's TTL, and of any non-empty list the TTL of one of its
    records that no record's TTL is below. *)
Theorem minTTL_smallest :
  minTTL [] = 0 /\
  (forall r : RR, minTTL [r] = ttl_of r) /\
  (forall (r : RR) (rs : list RR),
      minTTL (r :: rs) ∈ map ttl_of (r :: rs) /\
      Forall (fun x => minTTL (r :: rs) <= ttl_of x) (r :: rs)).
Proof.
  split; [reflexivity|]. split; [reflexivity|]. apply minTTL_cons.
Qed.

Lemma minTTL_nonneg (records : list RR) :
  Forall (fun r => is_u32 (ttl_of r)) records -> 0 <= minTTL records.
Proof.
  intros Hall. destruct records as [|r rs]; [simpl; reflexivity|].
  destruct (minTTL_cons r rs) as [Hin _].
  apply list_elem_of_fmap in Hin as (a & -> & Ha).
  rewrite Forall_forall in Hall. destruct (Hall a Ha). assumption.
Qed.

Lemma setTTL_decay_eq (records : list RR) (t : Z) :
  setTTL_by_value records t false =
  map (fun r => set_Ttl r
         (Clamp (u32_sub (ttl_of r) (u32_sub (minTTL records) t)) 1 (ttl_of r)))
    records.
Proof. reflexivity. Qed.

(** Below the original minimum nothing wraps and nothing is clamped: every
    TTL moves down by [minTTL records - t]. *)
Lemma setTTL_decay_shift (records : list RR) (t : Z) :
  Forall (fun r => is_u32 (ttl_of r)) records ->
  1 <= t < minTTL records ->
  map ttl_of (setTTL_by_value records t false) =
  map (fun r => ttl_of r - (minTTL records - t)) records.
Proof.
  intros Hall Ht. rewrite setTTL_decay_eq, map_map.
  apply map_ext_in. intros r Hr. rewrite ttl_of_set_Ttl.
  assert (minTTL records <= ttl_of r) as Hmin.
  { destruct records as [|r0 rs]; [destruct Hr|].
    destruct (minTTL_cons r0 rs) as [_ Hle]. rewrite Forall_forall in Hle.
    apply Hle. now apply list_elem_of_In. }
  assert (is_u32 (ttl_of r)) as Hu.
  { rewrite Forall_forall in Hall. apply Hall. now apply list_elem_of_In. }
  unfold is_u32 in Hu.
  rewrite (u32_sub_small (minTTL records) t) by lia.
  rewrite u32_sub_small by lia.
  apply Clamp_inside. lia.
Qed.


Lemma minTTL_map_mono (f : Z -> Z) (records records' : list RR) :
  (forall a b, a <= b -> f a <= f b) ->
  records <> [] ->
  map ttl_of records' = map (fun r => f (ttl_of r)) records ->
  minTTL records' = f (minTTL records).
Proof.
  intros Hf Hne Hmap. destruct records as [|r rs]; [contradiction|].
  destruct (minTTL_cons r rs) as [Hin Hle].
  apply minTTL_unique.
  - rewrite Hmap. apply list_elem_of_fmap in Hin as (a & -> & Ha).
    apply list_elem_of_fmap. exists a. split; [reflexivity | exact Ha].
  - apply Forall_forall. intros r' Hr'.
    assert (ttl_of r' ∈ map ttl_of records') as Hm
      by (apply list_elem_of_fmap; eauto).
    rewrite Hmap in Hm. apply list_elem_of_fmap in Hm as (a & -> & Ha).
    apply Hf. rewrite Forall_forall in Hle. now apply Hle.
Qed.


(** The message-level rewrite by value applies [setTTL_by_value] to each
    section, each with its own minimum. *)
Lemma setMsgMaxTTL_sections (msg : Msg) (t : Z) :
  Answer (setMsgMaxTTL_by_value msg t) = setTTL_by_value (Answer msg) t false /\
  Ns (setMsgMaxTTL_by_value msg t) = setTTL_by_value (Ns msg) t false /\
  Extra (setMsgMaxTTL_by_value msg t) = setTTL_by_value (Extra msg) t false.
Proof. repeat split. Qed.

(** The forced rewrite by value gives every record the TTL [t]. *)
Lemma setTTL_force (records : list RR) (t : Z) :
  Forall (fun r => ttl_of r = t) (setTTL_by_value records t true).
Proof.
  simpl. apply Forall_fmap, Forall_forall. reflexivity.
Qed.

(** ** Cache keys *)

Lemma string_length_app (s1 s2 : string) :
  String.length (s1 ++ s2) = (String.length s1 + String.length s2)%nat.
Proof. induction s1 as [|c s1 IH]; simpl; [reflexivity | now rewrite IH]. Qed.

Lemma string_app_inv_tail (s1 s2 t : string) :
  (s1 ++ t = s2 ++ t)%string -> s1 = s2.
Proof.
  revert s2. induction s1 as [|c s1 IH]; intros [|d s2] H; simpl in H.
  - reflexivity.
  - apply (f_equal String.length) in H. simpl in H.
    rewrite string_length_app in H. lia.
  - apply (f_equal String.length) in H. simpl in H.
    rewrite string_length_app in H. lia.
  - injection H as -> H. f_equal. now apply IH.
Qed.

(** The question part of a key. *)
Lemma genMsgCacheKey_absent (q : Question) :
  genMsgCacheKey (mkContext None) q =
  (QName q ++ ":" ++ fmt_d (Qtype q) ++ ":" ++ fmt_d (Qclass q))%string.
Proof. reflexivity. Qed.

Lemma genMsgCacheKey_present (q : Question) (proxy : string) :
  proxy <> ""%string ->
  genMsgCacheKey (mkContext (Some proxy)) q =
  (proxy ++ ":" ++ genMsgCacheKey (mkContext None) q)%string.
Proof.
  intros Hne. unfold genMsgCacheKey. simpl.
  apply String.eqb_neq in Hne. rewrite Hne. reflexivity.
Qed.

Lemma genMsgCacheKey_empty (q : Question) :
  genMsgCacheKey (mkContext (Some ""%string)) q = genMsgCacheKey (mkContext None) q.
Proof. reflexivity. Qed.

Lemma genMsgCacheKey_proxies_differ (q : Question) (p1 p2 : string) :
  p1 <> p2 ->
  genMsgCacheKey (mkContext (Some p1)) q <> genMsgCacheKey (mkContext (Some p2)) q.
Proof.
  intros Hne Heq.
  set (k := genMsgCacheKey (mkContext None) q) in *.
  assert (forall p, p <> ""%string -> k <> (p ++ ":" ++ k)%string) as Hlen.
  { intros p _ H. apply (f_equal String.length) in H.
    rewrite string_length_app in H. simpl in H. lia. }
  destruct (String.eqb_spec p1 ""%string) as [-> | H1];
    destruct (String.eqb_spec p2 ""%string) as [-> | H2].
  - contradiction.
  - rewrite genMsgCacheKey_empty, (genMsgCacheKey_present q p2 H2) in Heq.
    now apply (Hlen p2 H2).
  - rewrite genMsgCacheKey_empty, (genMsgCacheKey_present q p1 H1) in Heq.
    now apply (Hlen p1 H1).
  - rewrite (genMsgCacheKey_present q p1 H1), (genMsgCacheKey_present q p2 H2) in Heq.
    apply string_app_inv_tail in Heq. contradiction.
Qed.

(** C6 (amended): the key is a function of the selected proxy and the
    question.  A non-empty selected proxy gives
    "<proxy>:<name>:<qtype>:<qclass>"; an absent or empty one gives
    "<name>:<qtype>:<qclass>".  For one question two different selected
    proxies give different keys, and equal proxies and questions give
    equal keys. *)
Theorem genMsgCacheKey_spec (q : Question) :
  (forall proxy : string, proxy <> ""%string ->
     genMsgCacheKey (mkContext (Some proxy)) q =
     (proxy ++ ":" ++ QName q ++ ":" ++ fmt_d (Qtype q) ++ ":" ++ fmt_d (Qclass q))%string) /\
  (forall ctx : Context,
     proxy_value ctx = None \/ proxy_value ctx = Some ""%string ->
     genMsgCacheKey ctx q =
     (QName q ++ ":" ++ fmt_d (Qtype q) ++ ":" ++ fmt_d (Qclass q))%string) /\
  (forall p1 p2 : string, p1 <> p2 ->
     genMsgCacheKey (mkContext (Some p1)) q <> genMsgCacheKey (mkContext (Some p2)) q) /\
  (forall (ctx1 ctx2 : Context) (q' : Question),
     proxy_value ctx1 = proxy_value ctx2 -> q = q' ->
     genMsgCacheKey ctx1 q = genMsgCacheKey ctx2 q').
Proof.
  repeat split.
  - intros proxy Hne. now rewrite genMsgCacheKey_present.
  - intros [[|]] [H | H]; simpl in H; try discriminate; [|reflexivity].
    injection H as ->. reflexivity.
  - apply genMsgCacheKey_proxies_differ.
  - intros [v1] [v2] q' Hv <-. simpl in Hv. now subst.
Qed.

Lemma genMsgCacheKey_spec_witness :
  let q := mkQuestion "example.com." 1 1 in
  genMsgCacheKey (mkContext (Some "DIRECT"%string)) q = "DIRECT:example.com.:1:1"%string /\
  genMsgCacheKey (mkContext None) q = "example.com.:1:1"%string /\
  genMsgCacheKey (mkContext (Some "DIRECT"%string)) q <>
  genMsgCacheKey (mkContext (Some "Proxy"%string)) q /\
  genMsgCacheKey (mkContext (Some "Proxy"%string)) q =
  genMsgCacheKey (mkContext (Some "Proxy"%string)) q.
Proof.
  intros q. destruct (genMsgCacheKey_spec q) as (Hp & Ha & Hd & He).
  split; [apply (Hp "DIRECT"%string); discriminate|].
  split; [apply (Ha (mkContext None)); left; reflexivity|].
  split; [apply (Hd "DIRECT"%string "Proxy"%string); discriminate|].
  apply (He (mkContext (Some "Proxy"%string)) (mkContext (Some "Proxy"%string)) q);
    reflexivity.
Defined.

(** C6, as stated, fails for a context whose selected proxy is the empty
    string: the key is not ":<name>:<qtype>:<qclass>". *)
Lemma genMsgCacheKey_counterexample :
  let q := mkQuestion "example.com." 1 1 in
  genMsgCacheKey (mkContext (Some ""%string)) q <>
  ("" ++ ":" ++ QName q ++ ":" ++ fmt_d (Qtype q) ++ ":" ++ fmt_d (Qclass q))%string.
Proof. intros q. vm_compute. discriminate. Qed.

(** C10: a selected proxy that is the empty string yields the key of the
    no-proxy form, the same key as an absent selector, so both address the
    same cache entry. *)
Theorem genMsgCacheKey_empty_proxy (q : Question) :
  genMsgCacheKey (mkContext (Some ""%string)) q =
    (QName q ++ ":" ++ fmt_d (Qtype q) ++ ":" ++ fmt_d (Qclass q))%string /\
  genMsgCacheKey (mkContext (Some ""%string)) q = genMsgCacheKey (mkContext None) q /\
  (forall (now : Z) (c : LruCache),
     Get now c (genMsgCacheKey (mkContext (Some ""%string)) q) =
     Get now c (genMsgCacheKey (mkContext None) q)).
Proof. repeat split. Qed.

Example genMsgCacheKey_example :
  genMsgCacheKey (mkContext (Some "Proxy"%string)) (mkQuestion "example.com." 28 1) =
  "Proxy:example.com.:28:1"%string.
Proof. reflexivity. Qed.

(** ** The connection dialer *)

(** C7: a UDP dial through a registered proxy without UDP support fails
    at once, with no dial attempted, when the strict policy flag is set;
    otherwise it is served by a TCP dial to the same destination through
    the same proxy. *)
Theorem dial_udp_unsupported (env : Env) (dstIP : Addr) (port name : string)
    (opts : list dialerOption) (proxy : Proxy) :
  FindProxyByName env name = Some proxy ->
  SupportUDP proxy = false ->
  (UDPFallbackMatch env = true ->
   dialContextByProxyOrInterface env "udp" dstIP port name opts =
   ([], inr (errorString
               ("proxy " ++ proxy_Name proxy ++ " UDP is not supported")%string))) /\
  (UDPFallbackMatch env = false ->
   let metadata := mkMetadata TCP "" dstIP port in
   let '(events, r) := dialContextByProxyOrInterface env "udp" dstIP port name opts in
   List.filter is_dial events = [EvProxyDial (proxy_Name proxy) metadata opts] /\
   r = proxy_DialContext proxy metadata opts).
Proof.
  intros Hfind Hudp. unfold dialContextByProxyOrInterface.
  rewrite Hfind. simpl. rewrite Hudp. simpl. split; intros ->.
  - reflexivity.
  - simpl. split; reflexivity.
Qed.

Lemma dial_udp_unsupported_witness :
  dialContextByProxyOrInterface (sample_env true) "udp" sample_addr "53" "Proxy" [] =
    ([], inr (errorString "proxy Proxy UDP is not supported")) /\
  snd (dialContextByProxyOrInterface (sample_env false) "udp" sample_addr "53" "Proxy" []) =
    inl (netConn 1).
Proof.
  destruct (dial_udp_unsupported (sample_env true) sample_addr "53" "Proxy" []
              tcp_only_proxy eq_refl eq_refl) as [Hstrict _].
  destruct (dial_udp_unsupported (sample_env false) sample_addr "53" "Proxy" []
              tcp_only_proxy eq_refl eq_refl) as [_ Hlax].
  split; [exact (Hstrict eq_refl)|].
  pose proof (Hlax eq_refl) as Hdial. cbv zeta in Hdial.
  destruct (dialContextByProxyOrInterface (sample_env false) "udp" sample_addr
              "53" "Proxy" []) as [events r].
  destruct Hdial as [_ ->]. reflexivity.
Defined.

(** C8: for a name the registry does not know, the only action is one
    direct dial bound to that name as interface, with routing mark 0; its
    connection is returned on success, and on failure the error wraps the
    dial error and names the selector. *)
Theorem dial_selector_not_found (env : Env) (network : string) (dstIP : Addr)
    (port name : string) (opts : list dialerOption) :
  FindProxyByName env name = None ->
  let address := JoinHostPort (Addr_String dstIP) port in
  let bound := [WithInterface name; WithRoutingMark 0] in
  let '(events, r) :=
    dialContextByProxyOrInterface env network dstIP port name opts in
  events = [EvDial network address bound] /\
  match dialer_DialContext env network address bound with
  | inl conn => r = inl conn
  | inr err =>
      exists e, r = inr e /\
        errors_Unwrap e = Some err /\
        Error e = ("proxy " ++ name ++ " not found, " ++ Error err)%string
  end.
Proof.
  intros Hfind. unfold dialContextByProxyOrInterface. rewrite Hfind. simpl.
  destruct (dialer_DialContext env network _ _) as [conn | err]; simpl.
  - split; reflexivity.
  - split; [reflexivity|]. eexists. repeat split.
Qed.

Lemma dial_selector_not_found_witness :
  dialContextByProxyOrInterface (sample_env true) "tcp" sample_addr "53" "eth0" [] =
  ([EvDial "tcp" "8.8.8.8:53" [WithInterface "eth0"; WithRoutingMark 0]],
   inr (wrapError "proxy eth0 not found, no such device"
          (errorString "no such device"))).
Proof.
  pose proof (dial_selector_not_found (sample_env true) "tcp" sample_addr "53"
                "eth0" [] eq_refl) as H.
  cbv zeta in H.
  destruct (dialContextByProxyOrInterface (sample_env true) "tcp" sample_addr
              "53" "eth0" []) as [events r].
  destruct H as [-> (e & -> & Hwrap & Htext)].
  destruct e as [s | msg err | es]; try discriminate.
  simpl in Hwrap, Htext. injection Hwrap as ->. subst msg. reflexivity.
Defined.

(** ** Message objects on the heap *)

Lemma load_rrs_allocated (pre xs post : list RR) :
  mapM (fun p => (pre ++ xs ++ post) !! p) (seq (length pre) (length xs)) = Some xs.
Proof.
  revert pre. induction xs as [|x xs IH]; intros pre; [reflexivity|].
  apply mapM_Some_2. simpl. constructor.
  - now rewrite list_lookup_middle.
  - apply mapM_Some_1.
    specialize (IH (pre ++ [x])).
    rewrite length_app, Nat.add_1_r, <- app_assoc in IH. exact IH.
Qed.

Lemma load_rrs_frame (h0 h1 h2 : Heap) (base n : nat) :
  mutated_outside h0 h1 h2 ->
  (length (rrs h0) <= base)%nat ->
  (base + n <= length (rrs h1))%nat ->
  load_rrs h2 (seq base n) = load_rrs h1 (seq base n).
Proof.
  intros [Hrr _] Hlo Hhi. unfold load_rrs.
  apply Forall_mapM_ext, Forall_forall. intros p Hp.
  apply elem_of_seq in Hp. apply Hrr; lia.
Qed.

(** A copy reads as the original, lives in cells that did not exist
    before, and keeps reading the same whatever is done to older cells. *)
Lemma Copy_spec (h : Heap) (p : loc) (m : Msg) :
  load h p = Some m ->
  exists h1 : Heap,
    Copy h p = Some (length (msgs h), h1) /\
    load h1 (length (msgs h)) = Some m /\
    (forall h2 : Heap, mutated_outside h h1 h2 ->
                       load h2 (length (msgs h)) = Some m).
Proof.
  unfold load, Copy. intros Hload.
  destruct (msgs h !! p) as [o|]; [|discriminate]. simpl in *.
  destruct (load_rrs h (Answer o)) as [an|]; [|discriminate]. simpl in *.
  destruct (load_rrs h (Ns o)) as [ns|]; [|discriminate]. simpl in *.
  destruct (load_rrs h (Extra o)) as [ex|]; [|discriminate]. simpl in *.
  injection Hload as <-.
  eexists. split; [reflexivity|].
  set (h1 := mkHeap _ _).
  assert (load_rrs h1 (seq (length (rrs h)) (length an)) = Some an) as Han.
  { apply (load_rrs_allocated (rrs h) an (ns ++ ex)). }
  assert (load_rrs h1 (seq (length (rrs h) + length an) (length ns)) = Some ns) as Hns.
  { pose proof (load_rrs_allocated (rrs h ++ an) ns ex) as H.
    rewrite length_app, <- app_assoc in H. exact H. }
  assert (load_rrs h1 (seq (length (rrs h) + length an + length ns) (length ex))
          = Some ex) as Hex.
  { pose proof (load_rrs_allocated (rrs h ++ an ++ ns) ex []) as H.
    rewrite !length_app, Nat.add_assoc, app_nil_r, <- !app_assoc in H. exact H. }
  assert (length (rrs h1) = (length (rrs h) + length an + length ns + length ex)%nat)
    as Hlen by (subst h1; simpl; rewrite !length_app; lia).
  assert (msgs h1 !! length (msgs h) =
          Some (mkMsg (Hdr o) (Compress o) (Questions o)
                  (seq (length (rrs h)) (length an))
                  (seq (length (rrs h) + length an) (length ns))
                  (seq (length (rrs h) + length an + length ns) (length ex))))
    as Hcell.
  { subst h1. simpl. now rewrite list_lookup_middle. }
  split.
  - rewrite Hcell. cbn [mbind option_bind Answer Ns Extra].
    rewrite Han. cbn [mbind option_bind]. rewrite Hns. cbn [mbind option_bind].
    rewrite Hex. reflexivity.
  - intros h2 Hmut.
    assert (msgs h2 !! length (msgs h) = msgs h1 !! length (msgs h)) as ->.
    { destruct Hmut as [_ Hm]. apply Hm; [lia|].
      subst h1. simpl. rewrite length_app. simpl. lia. }
    rewrite Hcell. cbn [mbind option_bind Answer Ns Extra].
    rewrite !(load_rrs_frame h h1 h2) by (try exact Hmut; lia).
    rewrite Han. cbn [mbind option_bind]. rewrite Hns. cbn [mbind option_bind].
    rewrite Hex. reflexivity.
Qed.

(** Writing a TTL through a pointer that existed before the copy is such
    a mutation. *)
Lemma store_Ttl_outside (h0 h1 : Heap) (p : loc) (ttl : Z) :
  (p < length (rrs h0))%nat -> mutated_outside h0 h1 (store_Ttl h1 p ttl).
Proof.
  intros Hp. unfold store_Ttl.
  destruct (rrs h1 !! p) as [r|]; split; intros q Hq1 Hq2; simpl; try reflexivity.
  apply list_lookup_insert_ne. lia.
Qed.

(** *** The in-place rewrite and the rewrite by value *)

Lemma update_each_outside (f : RR -> RR) (records : list loc) :
  forall cells cells' : list RR,
    update_each f cells records = Some cells' ->
    length cells' = length cells /\
    forall q : loc, q ∉ records -> cells' !! q = cells !! q.
Proof.
  induction records as [|p rest IH]; intros cells cells' Hrun; simpl in Hrun.
  - injection Hrun as <-. split; reflexivity.
  - destruct (cells !! p) as [r|]; [|discriminate]. cbn [mbind option_bind] in Hrun.
    destruct (IH _ _ Hrun) as [Hlen Hout]. split.
    + now rewrite Hlen, length_insert.
    + intros q Hq. apply not_elem_of_cons in Hq as [Hne Hq].
      rewrite (Hout q Hq). apply list_lookup_insert_ne. congruence.
Qed.

(** On distinct pointers the loop is the map over the slice. *)
Lemma update_each_map (f : RR -> RR) (records : list loc) :
  forall cells rs : list RR,
    NoDup records ->
    mapM (fun p => cells !! p) records = Some rs ->
    exists cells' : list RR,
      update_each f cells records = Some cells' /\
      mapM (fun p => cells' !! p) records = Some (map f rs).
Proof.
  induction records as [|p rest IH]; intros cells rs Hnd Hread.
  - injection Hread as <-. exists cells. split; reflexivity.
  - apply NoDup_cons in Hnd as [Hp Hnd].
    apply mapM_Some_1 in Hread.
    destruct rs as [|r rs]; [inversion Hread|].
    apply Forall2_cons in Hread as [Hr Hrest].
    assert (mapM (fun q => <[p := f r]> cells !! q) rest = Some rs) as Hread'.
    { rewrite <- (mapM_Some_2 _ _ _ Hrest).
      apply Forall_mapM_ext, Forall_forall. intros q Hq.
      apply list_lookup_insert_ne. intros ->. contradiction. }
    destruct (IH _ _ Hnd Hread') as (cells' & Hrun & Hmap).
    exists cells'. split.
    + simpl. rewrite Hr. exact Hrun.
    + apply mapM_Some_2. cbn [map]. constructor; [|now apply mapM_Some_1].
      destruct (update_each_outside _ _ _ _ Hrun) as [_ Hout].
      rewrite (Hout p Hp). apply list_lookup_insert_eq.
      now apply lookup_lt_Some in Hr.
Qed.

Lemma setTTL_inplace_outside (h h' : Heap) (records : list loc) (ttl : Z)
    (force : bool) :
  setTTL h records ttl force = Some h' ->
  msgs h' = msgs h /\
  length (rrs h') = length (rrs h) /\
  forall q : loc, q ∉ records -> rrs h' !! q = rrs h !! q.
Proof.
  unfold setTTL. intros Hrun. destruct force.
  - destruct (update_each _ (rrs h) records) as [cells|] eqn:Hloop; [|discriminate].
    injection Hrun as <-. destruct (update_each_outside _ _ _ _ Hloop). auto.
  - destruct (load_rrs h records) as [rs|]; [|discriminate].
    cbn [mbind option_bind] in Hrun.
    destruct (update_each _ (rrs h) records) as [cells|] eqn:Hloop; [|discriminate].
    injection Hrun as <-. destruct (update_each_outside _ _ _ _ Hloop). auto.
Qed.

(** On a slice of distinct records the in-place rewrite leaves on the heap
    what [setTTL_by_value] computes by value. *)
Lemma setTTL_inplace_spec (h : Heap) (records : list loc) (rs : list RR)
    (ttl : Z) (force : bool) :
  NoDup records ->
  load_rrs h records = Some rs ->
  exists h' : Heap,
    setTTL h records ttl force = Some h' /\
    load_rrs h' records = Some (setTTL_by_value rs ttl force).
Proof.
  intros Hnd Hread. unfold setTTL, setTTL_by_value. destruct force.
  - destruct (update_each_map (fun r => set_Ttl r ttl) records (rrs h) rs Hnd Hread)
      as (cells & -> & Hmap).
    eexists. split; [reflexivity | exact Hmap].
  - rewrite Hread. cbn [mbind option_bind].
    destruct (update_each_map
                (fun r => set_Ttl r
                   (Clamp (u32_sub (ttl_of r) (u32_sub (minTTL rs) ttl)) 1 (ttl_of r)))
                records (rrs h) rs Hnd Hread)
      as (cells & -> & Hmap).
    eexists. split; [reflexivity | exact Hmap].
Qed.

Lemma load_rrs_untouched (h h' : Heap) (touched ps : list loc) :
  (forall q : loc, q ∉ touched -> rrs h' !! q = rrs h !! q) ->
  (forall p : loc, p ∈ ps -> p ∉ touched) ->
  load_rrs h' ps = load_rrs h ps.
Proof.
  intros Hout Hdisj. unfold load_rrs.
  apply Forall_mapM_ext, Forall_forall. intros p Hp. apply Hout, Hdisj, Hp.
Qed.

(** The message-level rewrite in place, on a message whose records are
    distinct objects, leaves on the heap the message that
    [setMsgTTLWithForce_by_value] computes by value. *)
Lemma setMsgTTLWithForce_inplace_spec (h : Heap) (msg : loc) (o : Msg_ loc)
    (m : Msg) (ttl : Z) (force : bool) :
  msgs h !! msg = Some o ->
  load h msg = Some m ->
  NoDup (Answer o ++ Ns o ++ Extra o) ->
  exists h' : Heap,
    setMsgTTLWithForce h msg ttl force = Some h' /\
    load h' msg = Some (setMsgTTLWithForce_by_value m ttl force).
Proof.
  intros Hcell Hload Hnd.
  apply NoDup_app in Hnd as (Hnd_an & Han_rest & Hnd).
  apply NoDup_app in Hnd as (Hnd_ns & Hns_ex & Hnd_ex).
  unfold load in Hload. rewrite Hcell in Hload. cbn [mbind option_bind] in Hload.
  destruct (load_rrs h (Answer o)) as [an|] eqn:Han; [|discriminate].
  cbn [mbind option_bind] in Hload.
  destruct (load_rrs h (Ns o)) as [ns|] eqn:Hns; [|discriminate].
  cbn [mbind option_bind] in Hload.
  destruct (load_rrs h (Extra o)) as [ex|] eqn:Hex; [|discriminate].
  cbn [mbind option_bind] in Hload. injection Hload as <-.
  destruct (setTTL_inplace_spec h (Answer o) an ttl force Hnd_an Han)
    as (h1 & Hrun1 & Han1).
  destruct (setTTL_inplace_outside _ _ _ _ _ Hrun1) as (Hm1 & _ & Hout1).
  assert (load_rrs h1 (Ns o) = Some ns) as Hns1.
  { rewrite <- Hns. apply (load_rrs_untouched h h1 (Answer o)); [exact Hout1|].
    intros p Hp Hin. apply (Han_rest p Hin), elem_of_app. now left. }
  assert (load_rrs h1 (Extra o) = Some ex) as Hex1.
  { rewrite <- Hex. apply (load_rrs_untouched h h1 (Answer o)); [exact Hout1|].
    intros p Hp Hin. apply (Han_rest p Hin), elem_of_app. now right. }
  destruct (setTTL_inplace_spec h1 (Ns o) ns ttl force Hnd_ns Hns1)
    as (h2 & Hrun2 & Hns2).
  destruct (setTTL_inplace_outside _ _ _ _ _ Hrun2) as (Hm2 & _ & Hout2).
  assert (load_rrs h2 (Answer o) = Some (setTTL_by_value an ttl force)) as Han2.
  { rewrite <- Han1. apply (load_rrs_untouched h1 h2 (Ns o)); [exact Hout2|].
    intros p Hp Hin. apply (Han_rest p Hp), elem_of_app. now left. }
  assert (load_rrs h2 (Extra o) = Some ex) as Hex2.
  { rewrite <- Hex1. apply (load_rrs_untouched h1 h2 (Ns o)); [exact Hout2|].
    intros p Hp Hin. now apply (Hns_ex p Hin). }
  destruct (setTTL_inplace_spec h2 (Extra o) ex ttl force Hnd_ex Hex2)
    as (h3 & Hrun3 & Hex3).
  destruct (setTTL_inplace_outside _ _ _ _ _ Hrun3) as (Hm3 & _ & Hout3).
  assert (load_rrs h3 (Answer o) = Some (setTTL_by_value an ttl force)) as Han3.
  { rewrite <- Han2. apply (load_rrs_untouched h2 h3 (Extra o)); [exact Hout3|].
    intros p Hp Hin. apply (Han_rest p Hp), elem_of_app. now right. }
  assert (load_rrs h3 (Ns o) = Some (setTTL_by_value ns ttl force)) as Hns3.
  { rewrite <- Hns2. apply (load_rrs_untouched h2 h3 (Extra o)); [exact Hout3|].
    intros p Hp Hin. now apply (Hns_ex p Hp). }
  exists h3. split.
  - unfold setMsgTTLWithForce. rewrite Hcell. cbn [mbind option_bind].
    rewrite Hrun1. cbn [mbind option_bind]. rewrite Hrun2. exact Hrun3.
  - unfold load. rewrite Hm3, Hm2, Hm1, Hcell. cbn [mbind option_bind].
    rewrite Han3. cbn [mbind option_bind]. rewrite Hns3. cbn [mbind option_bind].
    rewrite Hex3. reflexivity.
Qed.

(** Rewriting the TTLs of a message whose records existed before a copy
    was taken does not touch the cells of the copy. *)
Lemma setMsgTTLWithForce_inplace_outside (h0 h1 h2 : Heap) (msg : loc)
    (o : Msg_ loc) (ttl : Z) (force : bool) :
  msgs h1 !! msg = Some o ->
  Forall (fun p => (p < length (rrs h0))%nat) (Answer o ++ Ns o ++ Extra o) ->
  setMsgTTLWithForce h1 msg ttl force = Some h2 ->
  mutated_outside h0 h1 h2.
Proof.
  intros Hcell Hold Hrun. unfold setMsgTTLWithForce in Hrun.
  rewrite Hcell in Hrun. cbn [mbind option_bind] in Hrun.
  destruct (setTTL h1 (Answer o) ttl force) as [ha|] eqn:Hrun1;
    [|discriminate]. cbn [mbind option_bind] in Hrun.
  destruct (setTTL ha (Ns o) ttl force) as [hb|] eqn:Hrun2;
    [|discriminate]. cbn [mbind option_bind] in Hrun.
  destruct (setTTL_inplace_outside _ _ _ _ _ Hrun1) as (Hm1 & _ & Hout1).
  destruct (setTTL_inplace_outside _ _ _ _ _ Hrun2) as (Hm2 & _ & Hout2).
  destruct (setTTL_inplace_outside _ _ _ _ _ Hrun) as (Hm3 & _ & Hout3).
  rewrite Forall_forall in Hold.
  assert (forall (p : loc) (l : list loc),
             (length (rrs h0) <= p)%nat ->
             (forall q, q ∈ l -> q ∈ Answer o ++ Ns o ++ Extra o) -> p ∉ l)
    as Hfresh.
  { intros p l Hp Hl Hin. specialize (Hold p (Hl p Hin)). lia. }
  split.
  - intros p Hp _.
    rewrite Hout3, Hout2, Hout1; [reflexivity|..]; apply Hfresh; try exact Hp;
      intros q Hq; rewrite !elem_of_app; auto.
  - intros p _ _. now rewrite Hm3, Hm2, Hm1.
Qed.

(** Without distinctness the loop is not the map: a record that occurs
    twice in the slice is rewritten twice. *)
Example setTTL_inplace_aliased :
  (rrs <$> setTTL (mkHeap [rr_ttl 10] []) [0; 0]%nat 5 false)
    = Some [rr_ttl 1] /\
  setTTL_by_value [rr_ttl 10; rr_ttl 10] 5 false = [rr_ttl 5; rr_ttl 5].
Proof. split; reflexivity. Qed.

(** Distinctness of an explicit list of pointers. *)
Ltac distinct_pointers :=
  repeat (apply NoDup_cons_2;
          [let H := fresh "H" in
           intros H;
           repeat (rewrite elem_of_cons in H; destruct H as [H | H]; [discriminate|]);
           now apply elem_of_nil in H|]);
  apply NoDup_nil_2.

(** *** The decaying rewrite *)




(** A record whose TTL is 0 is another input where the stated range
    fails: with [t = 0] its TTL becomes 1. *)
Example setTTL_decay_zero_ttl_record :
  (map ttl_of <$> (rrs <$> setTTL (mkHeap [rr_ttl 0; rr_ttl 5] []) [0; 1]%nat 0 false))
  = Some [1; 5].
Proof. reflexivity. Qed.

(** ** The response cache *)

Lemma i64_small (x : Z) : - 2 ^ 63 <= x < 2 ^ 63 -> i64 x = x.
Proof. intros H. unfold i64. rewrite Z.mod_small; lia. Qed.

Lemma Duration_seconds (now ttl : Z) :
  is_u32 ttl -> Time_Add now (Duration_mul ttl Second) = now + ttl * Second.
Proof.
  unfold is_u32, u32_modulus, Time_Add, Duration_mul, Second. intros H.
  rewrite i64_small; lia.
Qed.

Lemma minTTL_u32 (records : list RR) :
  Forall (fun r => is_u32 (ttl_of r)) records -> is_u32 (minTTL records).
Proof.
  intros Hall. destruct records as [|r rs]; [split; vm_compute; congruence|].
  destruct (minTTL_cons r rs) as [Hin _].
  apply list_elem_of_fmap in Hin as (a & -> & Ha).
  rewrite Forall_forall in Hall. now apply Hall.
Qed.

Lemma find_none {A} (f : A -> bool) (l : list A) :
  Forall (fun x => f x = false) l -> List.find f l = None.
Proof. induction 1 as [|x l Hx _ IH]; simpl; [reflexivity | now rewrite Hx]. Qed.

Lemma find_app_none {A} (f : A -> bool) (l1 l2 : list A) :
  List.find f l1 = None -> List.find f (l1 ++ l2) = List.find f l2.
Proof.
  induction l1 as [|x l1 IH]; simpl; [reflexivity|].
  destruct (f x); [discriminate | exact IH].
Qed.

Lemma without_has_no_key (key : string) (es : list entry) :
  Forall (fun e => has_key key e = false) (without key es).
Proof.
  unfold without. induction es as [|e es IH]; simpl; [constructor|].
  destruct (has_key key e) eqn:He; simpl; [exact IH|].
  constructor; assumption.
Qed.

(** A key that was just set is found until its expiry. *)
Lemma Get_SetWithExpire (now : Z) (c : LruCache) (key : string) (value : loc)
    (expires : Z) :
  now < expires ->
  fst (Get now (SetWithExpire c key value expires) key) = Some value.
Proof.
  intros Hlive. unfold Get, SetWithExpire. cbn [entries maxSize].
  rewrite length_app. cbn [length].
  rewrite drop_app_le by lia.
  rewrite find_app_none.
  - cbn [List.find]. unfold has_key at 1. cbn [e_key]. rewrite String.eqb_refl.
    cbn [e_expires e_value]. destruct (Z.leb_spec expires now); [lia|].
    reflexivity.
  - apply find_none, Forall_drop, without_has_no_key.
Qed.

Lemma SetWithExpire_stored (c : LruCache) (key : string) (value : loc)
    (expires : Z) :
  mkEntry key value expires ∈ entries (SetWithExpire c key value expires).
Proof.
  unfold SetWithExpire. cbn [entries maxSize].
  rewrite length_app. cbn [length].
  rewrite drop_app_le by lia.
  apply elem_of_app. right. left.
Qed.

Lemma load_Answer_of_load (h : Heap) (p : loc) (m : Msg) :
  load h p = Some m -> load_Answer h p = Some (Answer m).
Proof.
  unfold load, load_Answer. intros H.
  destruct (msgs h !! p) as [o|]; [|discriminate]. cbn [mbind option_bind] in *.
  destruct (load_rrs h (Answer o)) as [an|]; [|discriminate].
  cbn [mbind option_bind] in *.
  destruct (load_rrs h (Ns o)) as [ns|]; [|discriminate].
  cbn [mbind option_bind] in *.
  destruct (load_rrs h (Extra o)) as [ex|]; [|discriminate].
  cbn [mbind option_bind] in *.
  injection H as <-. reflexivity.
Qed.

Lemma minTTL_all_zero (records : list RR) :
  records = [] \/ Forall (fun r => ttl_of r = 0) records -> minTTL records = 0.
Proof.
  intros [-> | Hall]; [reflexivity|].
  destruct records as [|r rs]; [reflexivity|].
  destruct (minTTL_cons r rs) as [Hin _].
  apply list_elem_of_fmap in Hin as (a & -> & Ha).
  rewrite Forall_forall in Hall. now apply Hall.
Qed.

(** What a put with override 0 does when the answer has a positive
    minimum TTL. *)
Lemma put_positive (now : Z) (h : Heap) (c : LruCache) (key : string)
    (msg : loc) (m : Msg) :
  load h msg = Some m ->
  Forall (fun r => is_u32 (ttl_of r)) (Answer m) ->
  minTTL (Answer m) <> 0 ->
  exists (h1 : Heap),
    Copy h msg = Some (length (msgs h), h1) /\
    load h1 (length (msgs h)) = Some m /\
    (forall h2 : Heap, mutated_outside h h1 h2 ->
                       load h2 (length (msgs h)) = Some m) /\
    putMsgToCacheWithExpire now h c key msg 0 =
      Some (h1, SetWithExpire c key (length (msgs h))
                  (now + minTTL (Answer m) * Second)).
Proof.
  intros Hload Hall Hpos.
  destruct (Copy_spec h msg m Hload) as (h1 & Hcopy & Hread & Hframe).
  exists h1. repeat split; try assumption.
  unfold putMsgToCacheWithExpire. cbn [Z.eqb].
  rewrite (load_Answer_of_load h msg m Hload). cbn [mbind option_bind].
  destruct (Z.eqb_spec (minTTL (Answer m)) 0) as [|_]; [contradiction|].
  unfold store_copy. rewrite Hcopy. cbn [mbind option_bind].
  rewrite Duration_seconds by now apply minTTL_u32.
  reflexivity.
Qed.

(** C4 (amended): with override 0 the TTL of a put is [minTTL] of the
    answer section alone; it is 0 for an empty or all-zero answer.  When
    it is 0 the put stores nothing and leaves heap and cache as they were,
    so a later get of the key returns nothing if the key had no entry (and
    whatever live entry the key had before otherwise).  When it is not 0,
    a newly allocated deep copy is stored under the key with expiry
    [now + ttl] seconds. *)
Theorem put_zero_override (now : Z) (h : Heap) (c : LruCache) (key : string)
    (msg : loc) (m : Msg) :
  load h msg = Some m ->
  Forall (fun r => is_u32 (ttl_of r)) (Answer m) ->
  let ttl := minTTL (Answer m) in
  (Answer m = [] \/ Forall (fun r => ttl_of r = 0) (Answer m) -> ttl = 0) /\
  (ttl = 0 ->
   putMsgToCacheWithExpire now h c key msg 0 = Some (h, c) /\
   (List.find (has_key key) (entries c) = None ->
    forall now' : Z, fst (Get now' c key) = None)) /\
  (ttl <> 0 ->
   exists (h1 : Heap) (cp : loc),
     Copy h msg = Some (cp, h1) /\
     (length (msgs h) <= cp)%nat /\
     load h1 cp = Some m /\
     putMsgToCacheWithExpire now h c key msg 0 =
       Some (h1, SetWithExpire c key cp (now + ttl * Second)) /\
     mkEntry key cp (now + ttl * Second)
       ∈ entries (SetWithExpire c key cp (now + ttl * Second))).
Proof.
  intros Hload Hall ttl. split; [apply minTTL_all_zero|]. split.
  - intros Hzero. split.
    + unfold putMsgToCacheWithExpire. cbn [Z.eqb].
      rewrite (load_Answer_of_load h msg m Hload). cbn [mbind option_bind].
      fold ttl. rewrite Hzero. reflexivity.
    + intros Habsent now'. unfold Get. rewrite Habsent. reflexivity.
  - intros Hpos.
    destruct (put_positive now h c key msg m Hload Hall Hpos)
      as (h1 & Hcopy & Hread & _ & Hput).
    exists h1, (length (msgs h)). repeat split; try assumption.
    + lia.
    + apply SetWithExpire_stored.
Qed.

Lemma put_zero_override_witness :
  putMsgToCacheWithExpire 7 sample_heap empty_cache "k" 1%nat 0 =
    Some (sample_heap, empty_cache) /\
  fst (Get 7 empty_cache "k") = None.
Proof.
  assert (load sample_heap 1%nat =
          Some (mkMsg sample_hdr false [mkQuestion "example.com." 1 1]
                  [rr_ttl 0] [] [])) as Hload by reflexivity.
  assert (Forall (fun r => is_u32 (ttl_of r)) [rr_ttl 0]) as Hall
    by (repeat constructor; vm_compute; congruence).
  destruct (put_zero_override 7 sample_heap empty_cache "k" 1%nat _ Hload Hall)
    as (_ & Hzero & _).
  destruct (Hzero eq_refl) as [Hput Hget].
  split; [exact Hput | exact (Hget eq_refl 7)].
Defined.

(** The TTLs of the authority and additional sections play no part: a
    message without answers is not cached, whatever they are. *)
Example put_ignores_other_sections :
  let h := mkHeap [rr_ttl 300; rr_ttl 600]
             [mkMsg sample_hdr false [] [] [0]%nat [1]%nat] in
  putMsgToCache 0 h empty_cache "k" 0%nat = Some (h, empty_cache).
Proof. reflexivity. Qed.

(** The warm state is what putting message 0 under "k" at time 0 gives. *)
Example warm_state_reached :
  putMsgToCache 0 sample_heap empty_cache "k" 0%nat = Some (warm_heap, warm_cache).
Proof. reflexivity. Qed.

(** C4, as stated, fails when the key already has a live entry: putting
    the zero-TTL message 1 under "k" stores nothing, and the get that
    follows returns the entry that was there. *)
Lemma put_zero_counterexample : ~ put_zero_as_stated 1 warm_heap warm_cache "k" 1%nat.
Proof.
  intros Hclaim.
  destruct (Hclaim (mkMsg sample_hdr false [mkQuestion "example.com." 1 1]
                      [rr_ttl 0] [] []) eq_refl eq_refl)
    as (h' & c' & Hput & Hget).
  vm_compute in Hput. injection Hput as <- <-.
  vm_compute in Hget. discriminate.
Qed.

(** C5: after a put of a message whose answer has a positive minimum TTL,
    a get of the key before the expiry returns a message that reads
    exactly as the original did at put time, and keeps reading so whatever
    the caller then writes through the pointers it held before the put. *)
Theorem put_get_roundtrip (now now' : Z) (h : Heap) (c : LruCache)
    (key : string) (msg : loc) (m : Msg) :
  load h msg = Some m ->
  Forall (fun r => is_u32 (ttl_of r)) (Answer m) ->
  0 < minTTL (Answer m) ->
  now <= now' < now + minTTL (Answer m) * Second ->
  exists (h1 : Heap) (c1 : LruCache) (cp : loc),
    putMsgToCache now h c key msg = Some (h1, c1) /\
    fst (Get now' c1 key) = Some cp /\
    load h1 cp = Some m /\
    (forall h2 : Heap, mutated_outside h h1 h2 -> load h2 cp = Some m).
Proof.
  intros Hload Hall Hpos Hnow.
  destruct (put_positive now h c key msg m Hload Hall ltac:(lia))
    as (h1 & _ & Hread & Hframe & Hput).
  eexists h1, _, (length (msgs h)). split; [exact Hput|].
  split; [apply Get_SetWithExpire; lia|]. split; assumption.
Qed.

Lemma put_get_roundtrip_witness :
  exists (h1 : Heap) (c1 : LruCache) (cp : loc),
    putMsgToCache 0 sample_heap empty_cache "k" 0%nat = Some (h1, c1) /\
    fst (Get 0 c1 "k") = Some cp /\
    load h1 cp = load sample_heap 0%nat /\
    load (store_Ttl h1 0%nat 1) cp = load sample_heap 0%nat.
Proof.
  assert (load sample_heap 0%nat =
          Some (mkMsg sample_hdr false [mkQuestion "example.com." 1 1]
                  [rr_ttl 60; rr_ttl 300] [] [])) as Hload by reflexivity.
  assert (Forall (fun r => is_u32 (ttl_of r)) [rr_ttl 60; rr_ttl 300]) as Hall
    by (repeat constructor; vm_compute; congruence).
  destruct (put_get_roundtrip 0 0 sample_heap empty_cache "k" 0%nat _ Hload Hall)
    as (h1 & c1 & cp & Hput & Hget & Hread & Hframe).
  - reflexivity.
  - split; vm_compute; congruence.
  - exists h1, c1, cp. rewrite Hload. repeat split; try assumption.
    apply Hframe, store_Ttl_outside. simpl. lia.
Defined.

(** The caller rewrites the TTLs of its message in place after the put;
    the cached copy still carries the TTLs of put time. *)
Example cached_copy_isolated :
  exists h2 : Heap,
    setMsgTTLWithForce warm_heap 0%nat 1 true = Some h2 /\
    (Answer <$> load h2 0%nat) = Some [rr_ttl 1; rr_ttl 1] /\
    (Answer <$> load h2 2%nat) = Some [rr_ttl 60; rr_ttl 300].
Proof. eexists. split; [reflexivity|]. split; reflexivity. Qed.

(** ** The racing resolver *)

(** What the function handed to the picker returns, in terms of the
    policy: a winning attempt returns its message and no error, any other
    attempt no message and its failure. *)
Lemma attempt_outcome (ctx : Context) (m : Msg) (r : dnsClient) :
  (exists mm, winning ctx m r = Some mm /\ failure ctx m r = None /\
              attempt ctx m r = (Some mm, None)) \/
  (exists e, winning ctx m r = None /\ failure ctx m r = Some e /\
             attempt ctx m r = (None, Some e)).
Proof.
  unfold winning, failure, attempt, acceptable, errors_New.
  destruct (ExchangeContext r ctx m) as [mm | fErr]; [|right; eauto].
  destruct (Rcode (Hdr mm) =? RcodeServerFailure);
    destruct (Rcode (Hdr mm) =? RcodeRefused); simpl; eauto.
Qed.

Lemma winning_iff (ctx : Context) (m : Msg) (r : dnsClient) (mm : Msg) :
  winning ctx m r = Some mm <->
  ExchangeContext r ctx m = inl mm /\
  Rcode (Hdr mm) <> RcodeServerFailure /\ Rcode (Hdr mm) <> RcodeRefused.
Proof.
  unfold winning, acceptable.
  destruct (ExchangeContext r ctx m) as [mm' | fErr].
  - destruct (Z.eqb_spec (Rcode (Hdr mm')) RcodeServerFailure);
      destruct (Z.eqb_spec (Rcode (Hdr mm')) RcodeRefused); simpl;
      split; try discriminate;
      try (intros [H [? ?]]; injection H as ->; contradiction).
    + intros H. injection H as ->. auto.
    + intros [H _]. injection H as ->. reflexivity.
  - split; [discriminate | intros [H _]; discriminate].
Qed.

Lemma not_winning_iff (ctx : Context) (m : Msg) (r : dnsClient) :
  winning ctx m r = None <->
  match ExchangeContext r ctx m with
  | inl mm => Rcode (Hdr mm) = RcodeServerFailure \/ Rcode (Hdr mm) = RcodeRefused
  | inr _ => True
  end.
Proof.
  unfold winning, acceptable.
  destruct (ExchangeContext r ctx m) as [mm | fErr]; [|tauto].
  destruct (Z.eqb_spec (Rcode (Hdr mm)) RcodeServerFailure);
    destruct (Z.eqb_spec (Rcode (Hdr mm)) RcodeRefused); simpl;
    split; auto; try discriminate. intros [|]; contradiction.
Qed.

Lemma omap_step {A B} (f : A -> option B) (x : A) (l : list A) :
  omap f (x :: l) =
  match f x with
  | Some y => y :: omap f l
  | None => omap f l
  end.
Proof. reflexivity. Qed.

Lemma first_winner_cons (ctx : Context) (m : Msg) (r : dnsClient)
    (done : list dnsClient) :
  first_winner ctx m (r :: done) =
  match winning ctx m r with
  | Some mm => Some mm
  | None => first_winner ctx m done
  end.
Proof.
  unfold first_winner. rewrite omap_step.
  destruct (winning ctx m r); reflexivity.
Qed.

Lemma failures_cons (ctx : Context) (m : Msg) (r : dnsClient)
    (done : list dnsClient) :
  omap (failure ctx m) (r :: done) =
  match failure ctx m r with
  | Some e => e :: omap (failure ctx m) done
  | None => omap (failure ctx m) done
  end.
Proof. apply omap_step. Qed.

Lemma complete_decided (p : Picker) (out : option Msg * option error) (x : Msg) :
  result p = Some x -> result (complete p out) = Some x.
Proof.
  intros H. unfold complete. destruct out as [ret [e|]]; [exact H|].
  now rewrite H.
Qed.

(** The picker after the attempts of [done] completed in that order. *)
Lemma race_fold (ctx : Context) (m : Msg) (done : list dnsClient) (p : Picker) :
  let p' := fold_left complete (map (attempt ctx m) done) p in
  match result p with
  | Some x => result p' = Some x
  | None =>
      result p' = first_winner ctx m done /\
      (first_winner ctx m done = None ->
       errs p' = errs p ++ omap (failure ctx m) done)
  end.
Proof.
  revert p. induction done as [|r done IH]; intros p; cbn zeta.
  - simpl. destruct (result p); [reflexivity|].
    split; [reflexivity | intros _; now rewrite app_nil_r].
  - cbn [map fold_left]. specialize (IH (complete p (attempt ctx m r))).
    cbn zeta in IH. rewrite first_winner_cons, failures_cons.
    destruct (result p) as [x|] eqn:Hres.
    { now rewrite (complete_decided p _ x Hres) in IH. }
    destruct (attempt_outcome ctx m r)
      as [(mm & Hw & Hf & Ha) | (e & Hw & Hf & Ha)];
      rewrite Ha in *; rewrite Hw, Hf.
    + assert (result (complete p (Some mm, None)) = Some mm) as Hwin
        by (unfold complete; now rewrite Hres).
      rewrite Hwin in IH. split; [exact IH | discriminate].
    + assert (result (complete p (None, Some e)) = None) as Hlose
        by (unfold complete; exact Hres).
      rewrite Hlose in IH. destruct IH as [IH1 IH2]. split; [exact IH1|].
      intros Hnone. rewrite (IH2 Hnone). unfold complete. cbn [errs].
      now rewrite <- app_assoc.
Qed.

Lemma first_winner_first (ctx : Context) (m : Msg) (pre post : list dnsClient)
    (r : dnsClient) :
  Forall (fun r' => winning ctx m r' = None) pre ->
  first_winner ctx m (pre ++ r :: post) =
  match winning ctx m r with
  | Some mm => Some mm
  | None => first_winner ctx m post
  end.
Proof.
  induction 1 as [|x l Hx _ IH]; cbn [app].
  - apply first_winner_cons.
  - now rewrite first_winner_cons, Hx.
Qed.

Lemma first_winner_skip (ctx : Context) (m : Msg) (pre post : list dnsClient)
    (r : dnsClient) :
  winning ctx m r = None ->
  first_winner ctx m (pre ++ r :: post) = first_winner ctx m (pre ++ post).
Proof.
  intros Hr. unfold first_winner. rewrite !omap_app, omap_step.
  now rewrite Hr.
Qed.

Lemma batchExchange_message (ctx : Context) (clients : list dnsClient) (m : Msg)
    (order : list nat) :
  batchExchange ctx clients m order =
  match first_winner ctx m (completion clients order) with
  | Some elm => (Some elm, None)
  | None =>
      (None,
       Some match omap (failure ctx m) (completion clients order) with
            | [] => errors_New "all DNS requests failed"
            | fs => joinError [errors_New "all DNS requests failed"; joinError fs]
            end)
  end.
Proof.
  unfold batchExchange, Wait, Picker_Error.
  pose proof (race_fold ctx m (completion clients order) WithContext) as H.
  cbn zeta in H. cbn [WithContext result errs] in H.
  destruct H as [Hres Herr]. rewrite Hres.
  destruct (first_winner ctx m (completion clients order)); [reflexivity|].
  rewrite (Herr eq_refl). cbn [app].
  destruct (omap (failure ctx m) (completion clients order)) as [|e fs];
    [reflexivity|].
  unfold errors_Join.
  assert (forall l : list error, omap id (map Some l) = l) as Hid.
  { induction l as [|x l IH]; [reflexivity|]. cbn. now rewrite IH. }
  rewrite Hid. reflexivity.
Qed.

Lemma completion_app (clients : list dnsClient) (o1 o2 : list nat) :
  completion clients (o1 ++ o2) = completion clients o1 ++ completion clients o2.
Proof. apply omap_app. Qed.

(** C1: the result is the message of the first attempt, in order of
    completion, that returned a message whose return code is neither
    SERVER-FAILURE nor REFUSED: attempts completed before it with one of
    these codes or with a transport error do not win, and leaving a
    non-winning attempt out of the run does not change the message
    returned. *)
Theorem batchExchange_winner (ctx : Context) (clients : list dnsClient)
    (m : Msg) (order : list nat) :
  fst (batchExchange ctx clients m order) =
    first_winner ctx m (completion clients order) /\
  (forall (pre post : list dnsClient) (r : dnsClient) (mm : Msg),
     completion clients order = pre ++ r :: post ->
     Forall (fun r' =>
               match ExchangeContext r' ctx m with
               | inl mm' => Rcode (Hdr mm') = RcodeServerFailure \/
                            Rcode (Hdr mm') = RcodeRefused
               | inr _ => True
               end) pre ->
     ExchangeContext r ctx m = inl mm ->
     Rcode (Hdr mm) <> RcodeServerFailure ->
     Rcode (Hdr mm) <> RcodeRefused ->
     batchExchange ctx clients m order = (Some mm, None)) /\
  (forall (o1 o2 : list nat) (i : nat) (r : dnsClient),
     order = o1 ++ i :: o2 ->
     clients !! i = Some r ->
     match ExchangeContext r ctx m with
     | inl mm' => Rcode (Hdr mm') = RcodeServerFailure \/
                  Rcode (Hdr mm') = RcodeRefused
     | inr _ => True
     end ->
     fst (batchExchange ctx clients m order) =
     fst (batchExchange ctx clients m (o1 ++ o2))).
Proof.
  split; [|split].
  - rewrite batchExchange_message.
    destruct (first_winner ctx m (completion clients order)); reflexivity.
  - intros pre post r mm Hdone Hpre Hr Hsf Hrf.
    rewrite batchExchange_message, Hdone, first_winner_first.
    + assert (winning ctx m r = Some mm) as -> by (apply winning_iff; auto).
      reflexivity.
    + eapply Forall_impl; [exact Hpre|]. intros r' Hr'. now apply not_winning_iff.
  - intros o1 o2 i r -> Hi Hr.
    rewrite !batchExchange_message, !completion_app.
    unfold completion at 2. rewrite omap_step, Hi.
    fold (completion clients o2).
    rewrite first_winner_skip by now apply not_winning_iff.
    destruct (first_winner ctx m (completion clients o1 ++ completion clients o2));
      reflexivity.
Qed.

Lemma batchExchange_winner_witness :
  batchExchange (mkContext None)
    [refusing_client; broken_client; answering_client] sample_query
    [1; 0; 2]%nat = (Some (sample_reply RcodeSuccess), None).
Proof.
  destruct (batchExchange_winner (mkContext None)
              [refusing_client; broken_client; answering_client] sample_query
              [1; 0; 2]%nat) as (_ & Hfirst & _).
  apply (Hfirst [broken_client; refusing_client] [] answering_client).
  - reflexivity.
  - apply Forall_cons. split; [exact I|].
    apply Forall_cons. split; [right; reflexivity | apply Forall_nil_2].
  - reflexivity.
  - discriminate.
  - discriminate.
Defined.

Lemma completion_prefix (pre clients : list dnsClient) :
  omap (fun i => (pre ++ clients) !! i) (seq (length pre) (length clients)) = clients.
Proof.
  revert pre. induction clients as [|r clients IH]; intros pre; [reflexivity|].
  cbn [length seq]. rewrite omap_step, list_lookup_middle by reflexivity.
  f_equal. specialize (IH (pre ++ [r])).
  rewrite length_app, Nat.add_1_r, <- app_assoc in IH. exact IH.
Qed.

(** When every client's attempt completes, the completed attempts are the
    clients, in some order. *)
Lemma completion_all (clients : list dnsClient) (order : list nat) :
  order ≡ₚ seq 0 (length clients) -> completion clients order ≡ₚ clients.
Proof.
  intros Hperm. unfold completion. rewrite Hperm.
  pose proof (completion_prefix [] clients) as H. cbn [app length] in H.
  now rewrite H.
Qed.

Lemma failures_all (ctx : Context) (m : Msg) (done : list dnsClient) :
  Forall (fun r => winning ctx m r = None) done ->
  first_winner ctx m done = None /\
  omap (failure ctx m) done =
  map (fun r => match ExchangeContext r ctx m with
                | inr fErr => fErr
                | inl _ => errors_New "server failure"
                end) done.
Proof.
  induction 1 as [|r done Hr _ [IH1 IH2]]; [split; reflexivity|].
  rewrite first_winner_cons, failures_cons, Hr, IH2. split; [exact IH1|].
  unfold winning, failure in *. cbn [map].
  destruct (ExchangeContext r ctx m) as [mm|fErr]; [|reflexivity].
  destruct (acceptable mm); [discriminate | reflexivity].
Qed.

Lemma aggregate_text (marker : string) (fs : list error) :
  Error (match fs with
         | [] => errors_New marker
         | _ => joinError [errors_New marker; joinError fs]
         end) =
  String.concat newline (marker :: map Error fs).
Proof. destruct fs as [|e fs]; reflexivity. Qed.

Lemma aggregate_mentions (marker : string) (fs : list error) (e : error) :
  e ∈ fs ->
  mentions (match fs with
             | [] => errors_New marker
             | _ => joinError [errors_New marker; joinError fs]
             end) e.
Proof.
  intros He. destruct fs as [|e0 fs]; [now apply elem_of_nil in He|].
  apply mentions_joined with (err := joinError (e0 :: fs)); [right; left|].
  apply mentions_joined with (err := e); [exact He | apply mentions_self].
Qed.

(** C2: when every attempt fails, [batchExchange] returns no message and
    one error: the marker "all DNS requests failed" joined with the joined
    failures of all attempts, a transport error as it is and a rejected
    reply as "server failure".  Its text is the marker followed by the
    text of each failure, and every client's failure is found in it. *)
Theorem batchExchange_all_failed (ctx : Context) (clients : list dnsClient)
    (m : Msg) (order : list nat) :
  order ≡ₚ seq 0 (length clients) ->
  Forall (fun r =>
            match ExchangeContext r ctx m with
            | inl mm => Rcode (Hdr mm) = RcodeServerFailure \/
                        Rcode (Hdr mm) = RcodeRefused
            | inr _ => True
            end) clients ->
  let failed (r : dnsClient) : error :=
    match ExchangeContext r ctx m with
    | inr fErr => fErr
    | inl _ => errors_New "server failure"
    end in
  let failures := map failed (completion clients order) in
  exists err : error,
    batchExchange ctx clients m order = (None, Some err) /\
    err = match failures with
          | [] => errors_New "all DNS requests failed"
          | _ => joinError [errors_New "all DNS requests failed"; joinError failures]
          end /\
    failures ≡ₚ map failed clients /\
    Error err = String.concat newline ("all DNS requests failed"%string :: map Error failures) /\
    Forall (fun r => mentions err (failed r)) clients.
Proof.
  intros Hperm Hall failed failures.
  pose proof (completion_all clients order Hperm) as Hdone.
  assert (Forall (fun r => winning ctx m r = None) (completion clients order))
    as Hlose.
  { rewrite Hdone. eapply Forall_impl; [exact Hall|].
    intros r Hr. now apply not_winning_iff. }
  destruct (failures_all ctx m _ Hlose) as [Hnone Hfs].
  fold failed in Hfs. fold failures in Hfs.
  eexists. split; [|split; [reflexivity|]].
  - rewrite batchExchange_message, Hnone, Hfs.
    destruct failures; reflexivity.
  - split; [|split].
    + subst failures. now rewrite Hdone.
    + apply aggregate_text.
    + apply Forall_forall. intros r Hr. apply aggregate_mentions.
      subst failures. apply list_elem_of_fmap. exists r. split; [reflexivity|].
      now rewrite Hdone.
Qed.

Lemma batchExchange_all_failed_witness :
  batchExchange (mkContext None) [refusing_client; broken_client] sample_query
    [1; 0]%nat =
  (None,
   Some (joinError [errorString "all DNS requests failed";
                    joinError [errorString "i/o timeout";
                               errorString "server failure"]])).
Proof.
  assert ([1; 0]%nat ≡ₚ seq 0 (length [refusing_client; broken_client])) as Hperm
    by apply Permutation_swap.
  assert (Forall (fun r =>
            match ExchangeContext r (mkContext None) sample_query with
            | inl mm => Rcode (Hdr mm) = RcodeServerFailure \/
                        Rcode (Hdr mm) = RcodeRefused
            | inr _ => True
            end) [refusing_client; broken_client]) as Hall.
  { apply Forall_cons. split; [right; reflexivity|].
    apply Forall_cons. split; [exact I | apply Forall_nil_2]. }
  destruct (batchExchange_all_failed (mkContext None)
              [refusing_client; broken_client] sample_query [1; 0]%nat
              Hperm Hall) as (err & Hres & Herr & _).
  rewrite Hres, Herr. reflexivity.
Defined.

Example batchExchange_no_clients (ctx : Context) (m : Msg) :
  batchExchange ctx [] m [] = (None, Some (errorString "all DNS requests failed")).
Proof. reflexivity. Qed.

(** * Further properties of the package *)

(** ** TTL policy: the forced rewrite *)

Lemma set_Ttl_same (r : RR) : set_Ttl r (ttl_of r) = r.
Proof. destruct r as [[n ty cl t len] data]. reflexivity. Qed.

(** The forced rewrite by value gives every record of every section the
    TTL [t] and changes nothing else. *)
Lemma setMsgTTL_by_value_forced (msg : Msg) (t : Z) :
  let same_but_ttl (r r' : RR) :=
    r' = set_Ttl r t /\ ttl_of r' = t /\
    Name (Header r') = Name (Header r) /\ Rrtype (Header r') = Rrtype (Header r) /\
    Class (Header r') = Class (Header r) /\ Rdlength (Header r') = Rdlength (Header r) /\
    Rdata r' = Rdata r in
  Forall2 same_but_ttl (Answer msg) (Answer (setMsgTTL_by_value msg t)) /\
  Forall2 same_but_ttl (Ns msg) (Ns (setMsgTTL_by_value msg t)) /\
  Forall2 same_but_ttl (Extra msg) (Extra (setMsgTTL_by_value msg t)) /\
  Hdr (setMsgTTL_by_value msg t) = Hdr msg /\
  Questions (setMsgTTL_by_value msg t) = Questions msg /\
  (forall (r : RR) (rs : list RR), minTTL (setTTL_by_value (r :: rs) t true) = t).
Proof.
  intros same_but_ttl.
  assert (forall rs, Forall2 same_but_ttl rs (setTTL_by_value rs t true)) as Hsec.
  { intros rs. cbn [setTTL_by_value]. apply Forall2_fmap_r, Forall_Forall2_diag, Forall_forall.
    intros r _. repeat split. }
  repeat split; try apply Hsec.
  intros r rs. apply minTTL_unique.
  - cbn [setTTL_by_value map]. left.
  - cbn [setTTL_by_value]. apply Forall_fmap, Forall_forall. intros x _.
    unfold compose. rewrite ttl_of_set_Ttl. lia.
Qed.

(** ** TTL policy: the decaying rewrite, record by record *)

Lemma u32_wrap_neg (x : Z) : - u32_modulus <= x < 0 -> x mod u32_modulus = x + u32_modulus.
Proof.
  intros H. replace x with ((x + u32_modulus) + (-1) * u32_modulus) at 1 by lia.
  rewrite Z.mod_add by (unfold u32_modulus; lia).
  apply Z.mod_small. lia.
Qed.

(** Below the minimum: the TTL moves down by [mn - t] and is held at 1. *)
Lemma decay_value_below (mn r t : Z) :
  is_u32 r -> mn <= r -> 0 <= t < mn ->
  Clamp (u32_sub r (u32_sub mn t)) 1 r = Z.max 1 (r - (mn - t)).
Proof.
  unfold is_u32. intros Hr Hmn Ht.
  rewrite (u32_sub_small mn t) by lia.
  rewrite u32_sub_small by lia.
  unfold Clamp. repeat case_match; lia.
Qed.

(** At or above the minimum: the difference [mn - t] wraps, and so does
    the subtraction from the TTL unless the TTL is within [t - mn] of
    2^32. *)
Lemma decay_value_above (mn r t : Z) :
  is_u32 r -> is_u32 t -> 0 <= mn -> mn <= r -> mn <= t -> 1 <= r ->
  Clamp (u32_sub r (u32_sub mn t)) 1 r =
  if r + (t - mn) <? u32_modulus then r
  else Z.max 1 (r + (t - mn) - u32_modulus).
Proof.
  unfold is_u32. intros Hr Ht Hmn0 Hmn Hmt Hr1.
  assert (u32_modulus = 4294967296) as HM by reflexivity.
  destruct (Z.eq_dec t mn) as [-> | Hne].
  - assert (u32_sub mn mn = 0) as ->
      by (unfold u32_sub; now rewrite Z.sub_diag).
    rewrite u32_sub_small by lia.
    destruct (Z.ltb_spec (r + (mn - mn)) u32_modulus); [|lia].
    rewrite Clamp_inside; lia.
  - assert (u32_sub mn t = mn - t + u32_modulus) as ->
      by (unfold u32_sub; apply u32_wrap_neg; lia).
    destruct (Z.ltb_spec (r + (t - mn)) u32_modulus).
    + assert (u32_sub r (mn - t + u32_modulus) = r + (t - mn)) as ->.
      { unfold u32_sub. rewrite u32_wrap_neg by lia. lia. }
      unfold Clamp. repeat case_match; lia.
    + assert (u32_sub r (mn - t + u32_modulus) = r + (t - mn) - u32_modulus) as ->.
      { unfold u32_sub. rewrite Z.mod_small by lia. lia. }
      unfold Clamp. repeat case_match; lia.
Qed.

Lemma minTTL_le (records : list RR) (r : RR) :
  r ∈ records -> minTTL records <= ttl_of r.
Proof.
  intros Hr. destruct records as [|r0 rs]; [now apply elem_of_nil in Hr|].
  destruct (minTTL_cons r0 rs) as [_ Hle]. rewrite Forall_forall in Hle.
  now apply Hle.
Qed.

Lemma setTTL_decay_fixed (records : list RR) (t : Z) :
  Forall (fun r => 1 <= ttl_of r /\ ttl_of r + (t - minTTL records) < u32_modulus)
    records ->
  is_u32 t ->
  minTTL records <= t ->
  setTTL_by_value records t false = records.
Proof.
  intros Hall Ht Hmin. rewrite setTTL_decay_eq.
  rewrite <- (map_id records) at 2. apply map_ext_in. intros r Hr.
  apply list_elem_of_In in Hr. rewrite Forall_forall in Hall.
  destruct (Hall r Hr) as [H1 H2].
  assert (0 <= minTTL records) as Hmin0.
  { destruct records as [|r0 rs]; [now apply elem_of_nil in Hr|].
    destruct (minTTL_cons r0 rs) as [Hin _].
    apply list_elem_of_fmap in Hin as (a & -> & Ha).
    destruct (Hall a Ha). lia. }
  pose proof (minTTL_le records r Hr) as Hle.
  rewrite decay_value_above; try assumption; try (unfold is_u32 in *; lia).
  destruct (Z.ltb_spec (ttl_of r + (t - minTTL records)) u32_modulus); [|lia].
  apply set_Ttl_same.
Qed.

(** By value: at or above the minimum a TTL within [t - minimum] of 2^32
    wraps and becomes [ttl + (t - minimum) - 2^32], held at 1. *)
Lemma setTTL_by_value_wraps (records records' : list RR) (t : Z) (i : nat) (r r' : RR) :
  Forall (fun r => is_u32 (ttl_of r)) records ->
  is_u32 t ->
  minTTL records <= t ->
  records' = setTTL_by_value records t false ->
  records !! i = Some r ->
  records' !! i = Some r' ->
  u32_modulus <= ttl_of r + (t - minTTL records) ->
  ttl_of r' = Z.max 1 (ttl_of r + (t - minTTL records) - u32_modulus) /\
  ttl_of r' <= ttl_of r /\
  (1 < ttl_of r -> ttl_of r' < ttl_of r).
Proof.
  intros Hall Ht Hmin -> Hi Hi' Hwrap.
  rewrite setTTL_decay_eq, list_lookup_fmap, Hi in Hi'. injection Hi' as <-.
  rewrite ttl_of_set_Ttl.
  assert (r ∈ records) as Hr by (eapply list_elem_of_lookup_2; exact Hi).
  pose proof (minTTL_le records r Hr) as Hle.
  pose proof (minTTL_nonneg records Hall) as Hmin0.
  rewrite Forall_forall in Hall. pose proof (Hall r Hr) as Hu.
  unfold is_u32 in *.
  rewrite decay_value_above; try assumption; try (unfold is_u32; lia).
  destruct (Z.ltb_spec (ttl_of r + (t - minTTL records)) u32_modulus); lia.
Qed.

Lemma decay_lookup (records : list RR) (t : Z) (i : nat) (r r' : RR) :
  records !! i = Some r ->
  setTTL_by_value records t false !! i = Some r' ->
  r ∈ records /\
  r' = set_Ttl r
         (Clamp (u32_sub (ttl_of r) (u32_sub (minTTL records) t)) 1 (ttl_of r)).
Proof.
  intros Hi Hi'. split; [eapply list_elem_of_lookup_2; exact Hi|].
  rewrite setTTL_decay_eq, list_lookup_fmap, Hi in Hi'. now injection Hi' as <-.
Qed.

(** By value: below the minimum the rewrite keeps the records in the
    order of their TTLs, and for [1 <= t] the difference of any two. *)
Lemma setTTL_by_value_order (records : list RR) (t : Z) (i j : nat)
    (ri rj ri' rj' : RR) :
  Forall (fun r => is_u32 (ttl_of r)) records ->
  0 <= t < minTTL records ->
  records !! i = Some ri ->
  records !! j = Some rj ->
  setTTL_by_value records t false !! i = Some ri' ->
  setTTL_by_value records t false !! j = Some rj' ->
  ttl_of ri <= ttl_of rj ->
  ttl_of ri' <= ttl_of rj' /\
  (1 <= t -> ttl_of rj' - ttl_of ri' = ttl_of rj - ttl_of ri).
Proof.
  intros Hall Ht Hi Hj Hi' Hj' Hle.
  destruct (decay_lookup records t i ri ri' Hi Hi') as [Hini ->].
  destruct (decay_lookup records t j rj rj' Hj Hj') as [Hinj ->].
  rewrite !ttl_of_set_Ttl.
  rewrite Forall_forall in Hall.
  rewrite !decay_value_below
    by (try apply Hall; try apply minTTL_le; try exact Ht; assumption).
  pose proof (minTTL_le records ri Hini). pose proof (minTTL_le records rj Hinj).
  lia.
Qed.

(** By value: for [1 <= t] below the minimum the rewrite is idempotent. *)
Lemma setTTL_by_value_idempotent (records : list RR) (t : Z) :
  Forall (fun r => is_u32 (ttl_of r)) records ->
  1 <= t < minTTL records ->
  setTTL_by_value (setTTL_by_value records t false) t false = setTTL_by_value records t false.
Proof.
  intros Hall Ht.
  assert (records <> []) as Hne.
  { intros ->. change (minTTL []) with 0 in Ht. lia. }
  assert (minTTL (setTTL_by_value records t false) = t) as Hmin.
  { rewrite (minTTL_map_mono (fun x => x - (minTTL records - t)) records);
      [lia | intros; lia | exact Hne |].
    now apply setTTL_decay_shift. }
  apply setTTL_decay_fixed.
  - rewrite Hmin, setTTL_decay_eq. apply Forall_fmap, Forall_forall.
    intros r Hr. unfold compose. rewrite ttl_of_set_Ttl.
    rewrite Forall_forall in Hall. pose proof (Hall r Hr) as Hu.
    pose proof (minTTL_le records r Hr) as Hle.
    rewrite decay_value_below by (try assumption; lia).
    unfold is_u32 in Hu. lia.
  - rewrite Forall_forall in Hall. destruct records as [|r0 rs]; [contradiction|].
    destruct (minTTL_cons r0 rs) as [Hin _].
    apply list_elem_of_fmap in Hin as (a & Ha & Hina).
    pose proof (Hall a Hina) as Hu. unfold is_u32 in *. lia.
  - lia.
Qed.

(** X6: [minTTL] does not depend on the order of the records. *)
Theorem minTTL_Permutation (records records' : list RR) :
  records ≡ₚ records' -> minTTL records = minTTL records'.
Proof.
  intros Hperm. destruct records' as [|r rs].
  - apply Permutation_nil_r in Hperm. now subst.
  - destruct (minTTL_cons r rs) as [Hin Hle]. apply minTTL_unique.
    + now rewrite Hperm.
    + now rewrite Hperm.
Qed.

Lemma minTTL_Permutation_witness :
  minTTL [rr_ttl 30; rr_ttl 7] = minTTL [rr_ttl 7; rr_ttl 30].
Proof. apply minTTL_Permutation, Permutation_swap. Defined.

(** ** The TTL rewrite on the heap *)

(** X7: on a message whose records are distinct objects, the in-place
    rewrite succeeds and leaves on the heap exactly the message that
    [setMsgTTLWithForce_by_value] computes by value. *)
Theorem setMsgTTLWithForce_inplace_refines (h : Heap) (msg : loc) (o : Msg_ loc)
    (m : Msg) (ttl : Z) (force : bool) :
  msgs h !! msg = Some o ->
  load h msg = Some m ->
  NoDup (Answer o ++ Ns o ++ Extra o) ->
  exists h' : Heap,
    setMsgTTLWithForce h msg ttl force = Some h' /\
    load h' msg = Some (setMsgTTLWithForce_by_value m ttl force).
Proof. apply setMsgTTLWithForce_inplace_spec. Qed.

Lemma setMsgTTLWithForce_inplace_refines_witness :
  exists h' : Heap,
    setMsgTTLWithForce sample_heap 0%nat 40 false = Some h' /\
    (map ttl_of <$> (Answer <$> load h' 0%nat)) = Some [40; 280].
Proof.
  destruct (setMsgTTLWithForce_inplace_refines sample_heap 0%nat
              (mkMsg sample_hdr false [mkQuestion "example.com." 1 1]
                 [0; 1]%nat [] [])
              (mkMsg sample_hdr false [mkQuestion "example.com." 1 1]
                 [rr_ttl 60; rr_ttl 300] [] [])
              40 false eq_refl eq_refl) as (h' & Hrun & Hload).
  - cbn [Answer Ns Extra app]. apply NoDup_cons. split; [|apply NoDup_singleton].
    intros H. apply list_elem_of_singleton in H. discriminate.
  - exists h'. split; [exact Hrun|]. rewrite Hload. reflexivity.
Defined.

Lemma set_Ttl_twice (r : RR) (a b : Z) : set_Ttl (set_Ttl r a) b = set_Ttl r b.
Proof. reflexivity. Qed.

Lemma update_each_ttl_only (g : RR -> Z) (records : list loc) :
  forall cells cells' : list RR,
    update_each (fun r => set_Ttl r (g r)) cells records = Some cells' ->
    forall (q : loc) (r' : RR),
      cells' !! q = Some r' ->
      exists r : RR, cells !! q = Some r /\ r' = set_Ttl r (ttl_of r').
Proof.
  induction records as [|p rest IH]; intros cells cells' Hrun q r' Hq;
    simpl in Hrun.
  - injection Hrun as <-. exists r'. split; [exact Hq|].
    symmetry. apply set_Ttl_same.
  - destruct (cells !! p) as [rp|] eqn:Hp; [|discriminate].
    cbn [mbind option_bind] in Hrun.
    destruct (IH _ _ Hrun q r' Hq) as (r1 & Hr1 & Heq).
    destruct (decide (p = q)) as [<- | Hne].
    + rewrite list_lookup_insert_eq in Hr1 by (now apply lookup_lt_Some in Hp).
      injection Hr1 as <-. exists rp. split; [exact Hp|].
      now rewrite set_Ttl_twice in Heq.
    + rewrite list_lookup_insert_ne in Hr1 by exact Hne. eauto.
Qed.

Lemma setTTL_inplace_ttl_only (h h' : Heap) (records : list loc) (ttl : Z)
    (force : bool) :
  setTTL h records ttl force = Some h' ->
  forall (q : loc) (r' : RR),
    rrs h' !! q = Some r' ->
    exists r : RR, rrs h !! q = Some r /\ r' = set_Ttl r (ttl_of r').
Proof.
  unfold setTTL. intros Hrun. destruct force.
  - destruct (update_each _ (rrs h) records) as [cells|] eqn:Hloop; [|discriminate].
    injection Hrun as <-. cbn [rrs].
    exact (update_each_ttl_only (fun _ => ttl) records _ _ Hloop).
  - destruct (load_rrs h records) as [rs|]; [|discriminate].
    cbn [mbind option_bind] in Hrun.
    destruct (update_each _ (rrs h) records) as [cells|] eqn:Hloop; [|discriminate].
    injection Hrun as <-. cbn [rrs].
    exact (update_each_ttl_only
             (fun r => Clamp (u32_sub (ttl_of r) (u32_sub (minTTL rs) ttl)) 1 (ttl_of r))
             records _ _ Hloop).
Qed.

(** X8: whatever pointers the sections of a message hold, also repeated
    ones, the in-place rewrite changes TTL fields only: the message cells
    and the number of record cells stay, every record cell keeps its name,
    type, class, length and data, and a record that no section of the
    message points to is not changed at all. *)
Theorem setMsgTTLWithForce_inplace_ttl_only (h h' : Heap) (msg : loc)
    (o : Msg_ loc) (ttl : Z) (force : bool) :
  msgs h !! msg = Some o ->
  setMsgTTLWithForce h msg ttl force = Some h' ->
  msgs h' = msgs h /\
  length (rrs h') = length (rrs h) /\
  forall (q : loc) (r' : RR),
    rrs h' !! q = Some r' ->
    exists r : RR,
      rrs h !! q = Some r /\ r' = set_Ttl r (ttl_of r') /\
      (q ∉ Answer o ++ Ns o ++ Extra o -> r' = r).
Proof.
  intros Hcell Hrun. unfold setMsgTTLWithForce in Hrun.
  rewrite Hcell in Hrun. cbn [mbind option_bind] in Hrun.
  destruct (setTTL h (Answer o) ttl force) as [ha|] eqn:Hrun1;
    [|discriminate]. cbn [mbind option_bind] in Hrun.
  destruct (setTTL ha (Ns o) ttl force) as [hb|] eqn:Hrun2;
    [|discriminate]. cbn [mbind option_bind] in Hrun.
  destruct (setTTL_inplace_outside _ _ _ _ _ Hrun1) as (Hm1 & Hl1 & Hout1).
  destruct (setTTL_inplace_outside _ _ _ _ _ Hrun2) as (Hm2 & Hl2 & Hout2).
  destruct (setTTL_inplace_outside _ _ _ _ _ Hrun) as (Hm3 & Hl3 & Hout3).
  split; [congruence|]. split; [congruence|].
  intros q r' Hq.
  destruct (setTTL_inplace_ttl_only _ _ _ _ _ Hrun q r' Hq) as (rb & Hrb & Eb).
  destruct (setTTL_inplace_ttl_only _ _ _ _ _ Hrun2 q rb Hrb) as (ra & Hra & Ea).
  destruct (setTTL_inplace_ttl_only _ _ _ _ _ Hrun1 q ra Hra) as (r & Hr & E).
  exists r. split; [exact Hr|]. split.
  - etransitivity; [exact Eb|].
    rewrite Ea, set_Ttl_twice. rewrite E, set_Ttl_twice. reflexivity.
  - intros Hout. rewrite !not_elem_of_app in Hout. destruct Hout as (H1 & H2 & H3).
    rewrite Hout3, Hout2, Hout1 in Hq by assumption. congruence.
Qed.

Lemma setMsgTTLWithForce_inplace_ttl_only_witness :
  exists h' : Heap,
    setMsgTTLWithForce warm_heap 0%nat 5 true = Some h' /\
    msgs h' = msgs warm_heap /\
    rrs h' !! 3%nat = rrs warm_heap !! 3%nat.
Proof.
  destruct (setMsgTTLWithForce warm_heap 0%nat 5 true) as [h'|] eqn:Hrun;
    [|discriminate].
  destruct (setMsgTTLWithForce_inplace_ttl_only warm_heap h' 0%nat _ 5 true
              eq_refl Hrun) as (Hm & _ & Hcells).
  exists h'. split; [reflexivity|]. split; [exact Hm|].
  injection Hrun as <-. reflexivity.
Defined.

(** *** The forced rewrite on the heap *)

(** A loop whose write is idempotent: every cell the slice points to,
    once or several times, has been written once; the others are as they
    were. *)
Lemma update_each_forced (f : RR -> RR) (records : list loc) :
  (forall r : RR, f (f r) = f r) ->
  forall cells : list RR,
    Forall (fun p => is_Some (cells !! p)) records ->
    exists cells' : list RR,
      update_each f cells records = Some cells' /\
      forall q : loc,
        cells' !! q = if decide (q ∈ records) then f <$> cells !! q else cells !! q.
Proof.
  intros Hidem. induction records as [|p rest IH]; intros cells Hvalid.
  - exists cells. split; [reflexivity|]. intros q.
    rewrite decide_False by apply not_elem_of_nil. reflexivity.
  - apply Forall_cons in Hvalid as [[r Hr] Hrest].
    assert (p < length cells)%nat as Hlt by now apply lookup_lt_Some in Hr.
    destruct (IH (<[p := f r]> cells)) as (cells' & Hrun & Hcells).
    { eapply Forall_impl; [exact Hrest|]. intros q [x Hx].
      destruct (decide (p = q)) as [<- | Hne].
      - rewrite list_lookup_insert_eq by exact Hlt. eauto.
      - rewrite list_lookup_insert_ne by exact Hne. eauto. }
    exists cells'. split; [simpl; rewrite Hr; exact Hrun|].
    intros q. rewrite Hcells.
    destruct (decide (p = q)) as [<- | Hne].
    + rewrite list_lookup_insert_eq by exact Hlt.
      rewrite (decide_True (P := p ∈ p :: rest)) by left.
      rewrite Hr. destruct (decide (p ∈ rest)); cbn; now rewrite ?Hidem.
    + rewrite list_lookup_insert_ne by exact Hne.
      destruct (decide (q ∈ rest)) as [Hin | Hnin].
      * rewrite decide_True by now right. reflexivity.
      * rewrite decide_False; [reflexivity|].
        intros Hin. apply elem_of_cons in Hin as [-> | Hin]; contradiction.
Qed.

Lemma setTTL_forced_cells (h : Heap) (records : list loc) (t : Z) :
  Forall (fun p => is_Some (rrs h !! p)) records ->
  exists h' : Heap,
    setTTL h records t true = Some h' /\
    msgs h' = msgs h /\
    forall q : loc,
      rrs h' !! q =
      if decide (q ∈ records) then (fun r => set_Ttl r t) <$> rrs h !! q
      else rrs h !! q.
Proof.
  intros Hvalid.
  destruct (update_each_forced (fun r => set_Ttl r t) records
              (fun r => set_Ttl_twice r t t) (rrs h) Hvalid)
    as (cells & Hrun & Hcells).
  unfold setTTL. rewrite Hrun. eexists. split; [reflexivity|].
  split; [reflexivity | exact Hcells].
Qed.

Lemma load_rrs_valid (h : Heap) (ps : list loc) (rs : list RR) :
  load_rrs h ps = Some rs -> Forall (fun p => is_Some (rrs h !! p)) ps.
Proof.
  intros Hread. apply mapM_Some_1 in Hread.
  induction Hread as [|p r ps rs Hp _ IH]; constructor; eauto.
Qed.

Lemma load_rrs_mapped (f : RR -> RR) (h h' : Heap) (ps : list loc) (rs : list RR) :
  (forall q : loc, q ∈ ps -> rrs h' !! q = f <$> rrs h !! q) ->
  load_rrs h ps = Some rs ->
  load_rrs h' ps = Some (map f rs).
Proof.
  intros Hcells Hread. apply mapM_Some_1 in Hread. apply mapM_Some_2.
  induction Hread as [|p r ps rs Hp _ IH]; [constructor|].
  cbn [map]. constructor.
  - rewrite Hcells by left. now rewrite Hp.
  - apply IH. intros q Hq. apply Hcells. now right.
Qed.

(** The forced rewrite of a message on the heap, whatever pointers its
    sections share: it succeeds, and the message then reads as the forced
    rewrite by value of what it read before. *)
Lemma setMsgTTL_forced_load (h : Heap) (p : loc) (m : Msg) (t : Z) :
  load h p = Some m ->
  exists h' : Heap,
    setMsgTTL h p t = Some h' /\
    msgs h' = msgs h /\
    load h' p = Some (setMsgTTL_by_value m t).
Proof.
  intros Hload. unfold load in Hload.
  destruct (msgs h !! p) as [o|] eqn:Hcell; [|discriminate].
  cbn [mbind option_bind] in Hload.
  destruct (load_rrs h (Answer o)) as [an|] eqn:Han; [|discriminate].
  cbn [mbind option_bind] in Hload.
  destruct (load_rrs h (Ns o)) as [ns|] eqn:Hns; [|discriminate].
  cbn [mbind option_bind] in Hload.
  destruct (load_rrs h (Extra o)) as [ex|] eqn:Hex; [|discriminate].
  cbn [mbind option_bind] in Hload. injection Hload as <-.
  pose proof (load_rrs_valid _ _ _ Han) as Van.
  pose proof (load_rrs_valid _ _ _ Hns) as Vns.
  pose proof (load_rrs_valid _ _ _ Hex) as Vex.
  set (f := fun r : RR => set_Ttl r t).
  assert (forall x : option RR, f <$> (f <$> x) = f <$> x) as Hff
    by (intros [r|]; reflexivity).
  assert (forall (ha hb : Heap) (touched : list loc),
             (forall q, rrs hb !! q =
                        if decide (q ∈ touched) then f <$> rrs ha !! q
                        else rrs ha !! q) ->
             forall ps, Forall (fun q => is_Some (rrs ha !! q)) ps ->
                        Forall (fun q => is_Some (rrs hb !! q)) ps) as Hkeep.
  { intros ha hb touched Hcells ps Hps. eapply Forall_impl; [exact Hps|].
    intros q [x Hx].
    rewrite Hcells. destruct (decide (q ∈ touched)); rewrite Hx; cbn; eauto. }
  destruct (setTTL_forced_cells h (Answer o) t Van) as (h1 & Hrun1 & Hm1 & Hc1).
  destruct (setTTL_forced_cells h1 (Ns o) t (Hkeep h h1 _ Hc1 _ Vns))
    as (h2 & Hrun2 & Hm2 & Hc2).
  destruct (setTTL_forced_cells h2 (Extra o) t
              (Hkeep h1 h2 _ Hc2 _ (Hkeep h h1 _ Hc1 _ Vex)))
    as (h3 & Hrun3 & Hm3 & Hc3).
  assert (forall q : loc,
             q ∈ Answer o ++ Ns o ++ Extra o -> rrs h3 !! q = f <$> rrs h !! q)
    as Hall.
  { intros q Hq. rewrite Hc3, Hc2, Hc1. rewrite !elem_of_app in Hq.
    destruct (decide (q ∈ Extra o)); destruct (decide (q ∈ Ns o));
      destruct (decide (q ∈ Answer o)); rewrite ?Hff; try reflexivity.
    tauto. }
  exists h3. split; [|split].
  - unfold setMsgTTL, setMsgTTLWithForce. rewrite Hcell. cbn [mbind option_bind].
    rewrite Hrun1. cbn [mbind option_bind]. rewrite Hrun2. exact Hrun3.
  - congruence.
  - unfold load. rewrite Hm3, Hm2, Hm1, Hcell. cbn [mbind option_bind].
    rewrite (load_rrs_mapped f h h3 (Answer o) an), (load_rrs_mapped f h h3 (Ns o) ns),
      (load_rrs_mapped f h h3 (Extra o) ex);
      try assumption;
      try (intros q Hq; apply Hall; rewrite !elem_of_app; auto).
    reflexivity.
Qed.

(** X1: [setMsgTTL] gives every record of every section the TTL [t] and
    changes nothing else: each section keeps its records, in order, with
    their names, types, classes, lengths and data, and header, flags and
    questions of the message stay; a non-empty section then has minimum
    TTL [t].  On the heap the rewrite succeeds on every readable message,
    whatever record pointers its sections share, and the message then
    reads as just described. *)
Theorem setMsgTTL_forced (msg : Msg) (t : Z) :
  let same_but_ttl (r r' : RR) :=
    r' = set_Ttl r t /\ ttl_of r' = t /\
    Name (Header r') = Name (Header r) /\ Rrtype (Header r') = Rrtype (Header r) /\
    Class (Header r') = Class (Header r) /\ Rdlength (Header r') = Rdlength (Header r) /\
    Rdata r' = Rdata r in
  Forall2 same_but_ttl (Answer msg) (Answer (setMsgTTL_by_value msg t)) /\
  Forall2 same_but_ttl (Ns msg) (Ns (setMsgTTL_by_value msg t)) /\
  Forall2 same_but_ttl (Extra msg) (Extra (setMsgTTL_by_value msg t)) /\
  Hdr (setMsgTTL_by_value msg t) = Hdr msg /\
  Questions (setMsgTTL_by_value msg t) = Questions msg /\
  (forall (r : RR) (rs : list RR), minTTL (setTTL_by_value (r :: rs) t true) = t) /\
  (forall (h : Heap) (p : loc),
     load h p = Some msg ->
     exists h' : Heap,
       setMsgTTL h p t = Some h' /\
       msgs h' = msgs h /\
       load h' p = Some (setMsgTTL_by_value msg t)).
Proof.
  intros same_but_ttl.
  destruct (setMsgTTL_by_value_forced msg t) as (H1 & H2 & H3 & H4 & H5 & H6).
  repeat split; try assumption.
  intros h p Hload. now apply setMsgTTL_forced_load.
Qed.

Lemma setMsgTTL_forced_witness :
  exists h' : Heap,
    setMsgTTL sample_heap 0%nat 9 = Some h' /\
    (map ttl_of <$> (Answer <$> load h' 0%nat)) = Some [9; 9].
Proof.
  destruct (setMsgTTL_forced
              (mkMsg sample_hdr false [mkQuestion "example.com." 1 1]
                 [rr_ttl 60; rr_ttl 300] [] []) 9)
    as (_ & _ & _ & _ & _ & _ & Hheap).
  destruct (Hheap sample_heap 0%nat eq_refl) as (h' & Hrun & _ & Hload).
  exists h'. split; [exact Hrun|]. rewrite Hload. reflexivity.
Defined.

(** *** The decaying rewrite on the heap *)

Lemma map_fixed_pointwise {A : Type} (f : A -> A) (l : list A) :
  map f l = l -> Forall (fun x => f x = x) l.
Proof.
  induction l as [|x l IH]; [constructor|].
  cbn [map]. intros H. injection H as Hx Hl. constructor; auto.
Qed.

(** A loop whose write changes none of the records it reads leaves the
    cells as they are, whatever the slice points to. *)
Lemma update_each_fixed (f : RR -> RR) (records : list loc) :
  forall cells rs : list RR,
    mapM (fun p => cells !! p) records = Some rs ->
    Forall (fun r => f r = r) rs ->
    update_each f cells records = Some cells.
Proof.
  induction records as [|p rest IH]; intros cells rs Hread Hfix; [reflexivity|].
  apply mapM_Some_1 in Hread.
  destruct rs as [|r rs]; [inversion Hread|].
  apply Forall2_cons in Hread as [Hp Hrest].
  apply Forall_cons in Hfix as [Hr Hfix].
  simpl. rewrite Hp. cbn [mbind option_bind]. rewrite Hr.
  rewrite (list_insert_id _ _ _ Hp).
  apply (IH cells rs); [now apply mapM_Some_2 | exact Hfix].
Qed.

Lemma setTTL_fixed (h : Heap) (records : list loc) (rs : list RR) (t : Z) :
  load_rrs h records = Some rs ->
  setTTL_by_value rs t false = rs ->
  setTTL h records t false = Some h.
Proof.
  intros Hread Hfix. unfold setTTL. rewrite Hread. cbn [mbind option_bind].
  rewrite setTTL_decay_eq in Hfix. apply map_fixed_pointwise in Hfix.
  rewrite (update_each_fixed _ records (rrs h) rs Hread Hfix).
  destruct h. reflexivity.
Qed.

(** On distinct records the heap after the rewrite is determined, and the
    slice reads as the rewrite by value of what it read before. *)
Lemma setTTL_run (h h' : Heap) (records : list loc) (rs rs' : list RR) (t : Z) :
  NoDup records ->
  load_rrs h records = Some rs ->
  setTTL h records t false = Some h' ->
  load_rrs h' records = Some rs' ->
  rs' = setTTL_by_value rs t false.
Proof.
  intros Hnd Hread Hrun Hread'.
  destruct (setTTL_inplace_spec h records rs t false Hnd Hread) as (h'' & Hrun'' & Hv).
  congruence.
Qed.

(** X2: capping at a value at or above the minimum changes no record, as
    long as no TTL is within [t - minimum] of 2^32 and no TTL is 0: the
    rewrite by value returns the records as they are, and on the heap the
    rewrite of any slice that reads as these records, whatever pointers it
    repeats, leaves the heap as it is. *)
Theorem setTTL_decay_noop (records : list RR) (t : Z) :
  Forall (fun r => 1 <= ttl_of r /\ ttl_of r + (t - minTTL records) < u32_modulus)
    records ->
  is_u32 t ->
  minTTL records <= t ->
  setTTL_by_value records t false = records /\
  (forall (h : Heap) (ps : list loc),
     load_rrs h ps = Some records -> setTTL h ps t false = Some h).
Proof.
  intros Hall Ht Hmin.
  pose proof (setTTL_decay_fixed records t Hall Ht Hmin) as Hfix.
  split; [exact Hfix|]. intros h ps Hread. now apply (setTTL_fixed h ps records).
Qed.

Lemma setTTL_decay_noop_witness :
  setTTL_by_value [rr_ttl 30; rr_ttl 7; rr_ttl 12] 9 false =
    [rr_ttl 30; rr_ttl 7; rr_ttl 12] /\
  setTTL (mkHeap [rr_ttl 30; rr_ttl 7; rr_ttl 12] []) [0; 1; 2]%nat 9 false =
    Some (mkHeap [rr_ttl 30; rr_ttl 7; rr_ttl 12] []).
Proof.
  destruct (setTTL_decay_noop [rr_ttl 30; rr_ttl 7; rr_ttl 12] 9) as [Hval Hheap].
  - repeat constructor; vm_compute; congruence.
  - split; vm_compute; congruence.
  - vm_compute. congruence.
  - split; [exact Hval|]. apply Hheap. reflexivity.
Defined.

(** X3: on a slice of distinct records, at or above the minimum, a TTL
    within [t - minimum] of 2^32 is the one case where the cap lowers a
    record: the subtraction wraps and the TTL becomes
    [ttl + (t - minimum) - 2^32], held at 1, which is below the original
    TTL unless that was 1 already.  [rs] are the records the slice points
    to before the rewrite, [rs'] after it. *)
Theorem setTTL_decay_wraps (h h' : Heap) (records : list loc) (rs rs' : list RR)
    (t : Z) (i : nat) (r r' : RR) :
  NoDup records ->
  load_rrs h records = Some rs ->
  Forall (fun r => is_u32 (ttl_of r)) rs ->
  is_u32 t ->
  minTTL rs <= t ->
  setTTL h records t false = Some h' ->
  load_rrs h' records = Some rs' ->
  rs !! i = Some r ->
  rs' !! i = Some r' ->
  u32_modulus <= ttl_of r + (t - minTTL rs) ->
  ttl_of r' = Z.max 1 (ttl_of r + (t - minTTL rs) - u32_modulus) /\
  ttl_of r' <= ttl_of r /\
  (1 < ttl_of r -> ttl_of r' < ttl_of r).
Proof.
  intros Hnd Hread Hall Ht Hmin Hrun Hread' Hi Hi' Hwrap.
  pose proof (setTTL_run h h' records rs rs' t Hnd Hread Hrun Hread') as Hv.
  now apply (setTTL_by_value_wraps rs rs' t i r r').
Qed.

Lemma setTTL_decay_wraps_witness :
  exists (h' : Heap) (r' : RR),
    setTTL (mkHeap [rr_ttl 4294967295; rr_ttl 1] []) [0; 1]%nat 3 false = Some h' /\
    rrs h' !! 0%nat = Some r' /\
    ttl_of r' = 1 /\ ttl_of r' <= 4294967295.
Proof.
  assert (NoDup [0; 1]%nat) as Hnd by distinct_pointers.
  assert (Forall (fun r => is_u32 (ttl_of r)) [rr_ttl 4294967295; rr_ttl 1]) as Hall
    by (repeat constructor; vm_compute; congruence).
  assert (is_u32 3) as Ht by (split; vm_compute; congruence).
  exists (mkHeap [rr_ttl 1; rr_ttl 1] []), (rr_ttl 1).
  split; [reflexivity|]. split; [reflexivity|].
  destruct (setTTL_decay_wraps (mkHeap [rr_ttl 4294967295; rr_ttl 1] [])
              (mkHeap [rr_ttl 1; rr_ttl 1] []) [0; 1]%nat
              [rr_ttl 4294967295; rr_ttl 1] [rr_ttl 1; rr_ttl 1] 3 0
              (rr_ttl 4294967295) (rr_ttl 1) Hnd eq_refl Hall Ht)
    as (Hval & Hle & _);
    try reflexivity; try (vm_compute; congruence).
  split; [exact Hval | exact Hle].
Defined.

(** X4: on a slice of distinct records, below the minimum, the rewrite
    keeps the records in the order of their TTLs, and for [1 <= t] it
    keeps the difference of any two TTLs.  [rs] are the records the slice
    points to before the rewrite, [rs'] after it. *)
Theorem setTTL_decay_order (h h' : Heap) (records : list loc) (rs rs' : list RR)
    (t : Z) (i j : nat) (ri rj ri' rj' : RR) :
  NoDup records ->
  load_rrs h records = Some rs ->
  Forall (fun r => is_u32 (ttl_of r)) rs ->
  0 <= t < minTTL rs ->
  setTTL h records t false = Some h' ->
  load_rrs h' records = Some rs' ->
  rs !! i = Some ri ->
  rs !! j = Some rj ->
  rs' !! i = Some ri' ->
  rs' !! j = Some rj' ->
  ttl_of ri <= ttl_of rj ->
  ttl_of ri' <= ttl_of rj' /\
  (1 <= t -> ttl_of rj' - ttl_of ri' = ttl_of rj - ttl_of ri).
Proof.
  intros Hnd Hread Hall Ht Hrun Hread' Hi Hj Hi' Hj' Hle.
  pose proof (setTTL_run h h' records rs rs' t Hnd Hread Hrun Hread') as ->.
  now apply (setTTL_by_value_order rs t i j ri rj ri' rj').
Qed.

Lemma setTTL_decay_order_witness :
  exists h' : Heap,
    setTTL (mkHeap [rr_ttl 30; rr_ttl 7; rr_ttl 12] []) [0; 1; 2]%nat 5 false = Some h' /\
    map ttl_of (rrs h') = [28; 5; 10] /\
    5 <= 10 /\ 10 - 5 = 12 - 7.
Proof.
  assert (NoDup [0; 1; 2]%nat) as Hnd by distinct_pointers.
  assert (Forall (fun r => is_u32 (ttl_of r)) [rr_ttl 30; rr_ttl 7; rr_ttl 12])
    as Hall by (repeat constructor; vm_compute; congruence).
  exists (mkHeap [rr_ttl 28; rr_ttl 5; rr_ttl 10] []).
  split; [reflexivity|]. split; [reflexivity|].
  assert (0 <= 5 < minTTL [rr_ttl 30; rr_ttl 7; rr_ttl 12]) as Ht
    by (vm_compute; split; congruence).
  assert (ttl_of (rr_ttl 7) <= ttl_of (rr_ttl 12)) as Hle
    by (vm_compute; congruence).
  destruct (setTTL_decay_order (mkHeap [rr_ttl 30; rr_ttl 7; rr_ttl 12] [])
              (mkHeap [rr_ttl 28; rr_ttl 5; rr_ttl 10] []) [0; 1; 2]%nat
              [rr_ttl 30; rr_ttl 7; rr_ttl 12] [rr_ttl 28; rr_ttl 5; rr_ttl 10]
              5 1 2 (rr_ttl 7) (rr_ttl 12) (rr_ttl 5) (rr_ttl 10) Hnd eq_refl Hall
              Ht eq_refl eq_refl eq_refl eq_refl eq_refl eq_refl Hle)
    as [Hord Hdiff].
  split; [exact Hord | apply Hdiff; lia].
Defined.

(** X5: on a slice of distinct records, for [1 <= t] below the minimum,
    the rewrite is idempotent: the minimum is then [t], and a second
    rewrite with the same [t] leaves the heap as the first one left it. *)
Theorem setTTL_decay_idempotent (h h' : Heap) (records : list loc) (rs : list RR)
    (t : Z) :
  NoDup records ->
  load_rrs h records = Some rs ->
  Forall (fun r => is_u32 (ttl_of r)) rs ->
  1 <= t < minTTL rs ->
  setTTL h records t false = Some h' ->
  setTTL h' records t false = Some h'.
Proof.
  intros Hnd Hread Hall Ht Hrun.
  destruct (setTTL_inplace_spec h records rs t false Hnd Hread) as (h'' & Hrun'' & Hv).
  assert (h'' = h') as -> by congruence.
  apply (setTTL_fixed h' records (setTTL_by_value rs t false)); [exact Hv|].
  now apply setTTL_by_value_idempotent.
Qed.

Lemma setTTL_decay_idempotent_witness :
  setTTL (mkHeap [rr_ttl 28; rr_ttl 5] []) [0; 1]%nat 5 false =
  Some (mkHeap [rr_ttl 28; rr_ttl 5] []).
Proof.
  assert (NoDup [0; 1]%nat) as Hnd by distinct_pointers.
  apply (setTTL_decay_idempotent (mkHeap [rr_ttl 30; rr_ttl 7] [])
           (mkHeap [rr_ttl 28; rr_ttl 5] []) [0; 1]%nat [rr_ttl 30; rr_ttl 7] 5 Hnd).
  - reflexivity.
  - repeat constructor; vm_compute; congruence.
  - vm_compute. split; congruence.
  - reflexivity.
Defined.

(** With [t = 0] the rewrite is not idempotent: every pass moves the
    records further down until all are at 1.  Nor is it on a slice that
    holds a record several times. *)
Example setTTL_decay_again :
  (map ttl_of <$> (rrs <$> setTTL (mkHeap [rr_ttl 10; rr_ttl 20] []) [0; 1]%nat 0 false))
    = Some [1; 10] /\
  (map ttl_of <$> (rrs <$> setTTL (mkHeap [rr_ttl 1; rr_ttl 10] []) [0; 1]%nat 0 false))
    = Some [1; 9] /\
  (map ttl_of <$>
     (rrs <$> setTTL (mkHeap [rr_ttl 4; rr_ttl 4294967295] []) [0; 0; 0; 0; 1]%nat 3 false))
    = Some [1; 4294967294] /\
  (map ttl_of <$>
     (rrs <$> setTTL (mkHeap [rr_ttl 1; rr_ttl 4294967294] []) [0; 0; 0; 0; 1]%nat 3 false))
    = Some [1; 1].
Proof. repeat split; reflexivity. Qed.

(** ** Putting into the cache *)

(** X9: a [uint32] number of seconds never overflows the signed 64-bit
    nanosecond count of [time.Duration]: the product is exact and below
    2^63, so the expiry of a put is [ttl] seconds after [now] and is
    later than [now] exactly when [ttl] is not 0. *)
Theorem Duration_seconds_exact (now ttl : Z) :
  is_u32 ttl ->
  Duration_mul ttl Second = ttl * Second /\
  0 <= Duration_mul ttl Second < 2 ^ 63 /\
  (now < Time_Add now (Duration_mul ttl Second) <-> ttl <> 0).
Proof.
  intros Hu. pose proof (Duration_seconds 0 ttl Hu) as H.
  unfold Time_Add in *. rewrite Z.add_0_l in H. rewrite H.
  unfold is_u32, u32_modulus, Second in *. lia.
Qed.

Lemma Duration_seconds_exact_witness :
  Duration_mul 4294967295 Second = 4294967295000000000.
Proof.
  destruct (Duration_seconds_exact 0 4294967295) as [H _];
    [split; vm_compute; congruence|].
  exact H.
Defined.

(** X10: with an override that is not 0 the TTLs of the message play no
    part: whatever the answer section holds, also nothing, a new copy is
    stored under the key with expiry [ttl] seconds after [now]. *)
Theorem put_with_override (now : Z) (h : Heap) (c : LruCache) (key : string)
    (msg : loc) (m : Msg) (ttl : Z) :
  load h msg = Some m ->
  is_u32 ttl ->
  ttl <> 0 ->
  exists h1 : Heap,
    Copy h msg = Some (length (msgs h), h1) /\
    load h1 (length (msgs h)) = Some m /\
    putMsgToCacheWithExpire now h c key msg ttl =
      Some (h1, SetWithExpire c key (length (msgs h)) (now + ttl * Second)).
Proof.
  intros Hload Hu Hne.
  destruct (Copy_spec h msg m Hload) as (h1 & Hcopy & Hread & _).
  exists h1. repeat split; try assumption.
  unfold putMsgToCacheWithExpire.
  destruct (Z.eqb_spec ttl 0) as [|_]; [contradiction|].
  unfold store_copy. rewrite Hcopy. cbn [mbind option_bind].
  now rewrite Duration_seconds.
Qed.

Lemma put_with_override_witness :
  exists h1 : Heap,
    putMsgToCacheWithExpire 0 sample_heap empty_cache "k" 1%nat 30 =
      Some (h1, mkLruCache 4 [mkEntry "k" 2%nat 30000000000]).
Proof.
  destruct (put_with_override 0 sample_heap empty_cache "k" 1%nat
              (mkMsg sample_hdr false [mkQuestion "example.com." 1 1]
                 [rr_ttl 0] [] []) 30 eq_refl) as (h1 & _ & _ & Hput).
  - split; vm_compute; congruence.
  - discriminate.
  - exists h1. rewrite Hput. reflexivity.
Defined.

Lemma load_rrs_extends (h h1 : Heap) (more : list RR) (ps : list loc)
    (rs : list RR) :
  rrs h1 = rrs h ++ more ->
  load_rrs h ps = Some rs -> load_rrs h1 ps = Some rs.
Proof.
  intros Hext Hread. unfold load_rrs in *. rewrite Hext.
  apply mapM_Some_2. apply mapM_Some_1 in Hread.
  eapply Forall2_impl; [exact Hread|]. intros p r Hp.
  now apply lookup_app_l_Some.
Qed.

Lemma load_extends (h h1 : Heap) (more : list RR) (more_msgs : list (Msg_ loc))
    (p : loc) (m : Msg) :
  rrs h1 = rrs h ++ more ->
  msgs h1 = msgs h ++ more_msgs ->
  load h p = Some m -> load h1 p = Some m.
Proof.
  intros Hrr Hmm Hload. unfold load in *.
  destruct (msgs h !! p) as [o|] eqn:Hcell; [|discriminate].
  rewrite Hmm, (lookup_app_l_Some _ _ _ _ Hcell).
  cbn [mbind option_bind] in *.
  destruct (load_rrs h (Answer o)) as [an|] eqn:Han; [|discriminate].
  rewrite (load_rrs_extends h h1 more _ _ Hrr Han). cbn [mbind option_bind] in *.
  destruct (load_rrs h (Ns o)) as [ns|] eqn:Hns; [|discriminate].
  rewrite (load_rrs_extends h h1 more _ _ Hrr Hns). cbn [mbind option_bind] in *.
  destruct (load_rrs h (Extra o)) as [ex|] eqn:Hex; [|discriminate].
  rewrite (load_rrs_extends h h1 more _ _ Hrr Hex). cbn [mbind option_bind] in *.
  exact Hload.
Qed.

Lemma Copy_extends (h h1 : Heap) (p cp : loc) :
  Copy h p = Some (cp, h1) ->
  exists (more : list RR) (more_msgs : list (Msg_ loc)),
    rrs h1 = rrs h ++ more /\ msgs h1 = msgs h ++ more_msgs.
Proof.
  unfold Copy. intros Hcopy.
  destruct (msgs h !! p) as [o|]; [|discriminate]. cbn [mbind option_bind] in Hcopy.
  destruct (load_rrs h (Answer o)) as [an|]; [|discriminate].
  cbn [mbind option_bind] in Hcopy.
  destruct (load_rrs h (Ns o)) as [ns|]; [|discriminate].
  cbn [mbind option_bind] in Hcopy.
  destruct (load_rrs h (Extra o)) as [ex|]; [|discriminate].
  cbn [mbind option_bind] in Hcopy.
  injection Hcopy as _ <-. cbn [rrs msgs]. eauto.
Qed.

(** X11: a put, with any override, never writes to a cell that existed
    before: the heap only grows, and every message readable before the
    put, the caller's own included, reads the same after it. *)
Theorem put_keeps_heap (now : Z) (h h1 : Heap) (c c1 : LruCache) (key : string)
    (msg : loc) (ttl : Z) :
  putMsgToCacheWithExpire now h c key msg ttl = Some (h1, c1) ->
  (exists (more : list RR) (more_msgs : list (Msg_ loc)),
     rrs h1 = rrs h ++ more /\ msgs h1 = msgs h ++ more_msgs) /\
  (forall (p : loc) (m : Msg), load h p = Some m -> load h1 p = Some m).
Proof.
  intros Hput.
  assert (exists (more : list RR) (more_msgs : list (Msg_ loc)),
             rrs h1 = rrs h ++ more /\ msgs h1 = msgs h ++ more_msgs) as Hext.
  { unfold putMsgToCacheWithExpire, store_copy in Hput.
    assert (forall t,
               (Copy h msg ≫= (fun '(cp, h') =>
                  Some (h', SetWithExpire c key cp
                              (Time_Add now (Duration_mul t Second))))) =
               Some (h1, c1) ->
               exists more more_msgs,
                 rrs h1 = rrs h ++ more /\ msgs h1 = msgs h ++ more_msgs) as Hstore.
    { intros t Hs. destruct (Copy h msg) as [[cp h']|] eqn:Hcopy; [|discriminate].
      cbn [mbind option_bind] in Hs. injection Hs as <- _.
      exact (Copy_extends _ _ _ _ Hcopy). }
    destruct (ttl =? 0); [|exact (Hstore _ Hput)].
    destruct (load_Answer h msg) as [an|]; [|discriminate].
    cbn [mbind option_bind] in Hput.
    destruct (minTTL an =? 0); [|exact (Hstore _ Hput)].
    injection Hput as <- _. exists [], []. now rewrite !app_nil_r. }
  split; [exact Hext|].
  destruct Hext as (more & more_msgs & Hrr & Hmm).
  intros p m. now apply (load_extends h h1 more more_msgs).
Qed.

Lemma put_keeps_heap_witness :
  load warm_heap 0%nat = load sample_heap 0%nat /\
  load warm_heap 1%nat = load sample_heap 1%nat.
Proof.
  destruct (put_keeps_heap 0 sample_heap warm_heap empty_cache warm_cache "k"
              0%nat 0 eq_refl) as [_ Hkept].
  split.
  - rewrite (Hkept 0%nat _ eq_refl). reflexivity.
  - rewrite (Hkept 1%nat _ eq_refl). reflexivity.
Defined.

Lemma minTTL_forced (r : RR) (rs : list RR) (t : Z) :
  minTTL (setTTL_by_value (r :: rs) t true) = t.
Proof.
  apply minTTL_unique.
  - cbn [setTTL_by_value map]. left.
  - cbn [setTTL_by_value]. apply Forall_fmap, Forall_forall. intros x _.
    unfold compose. rewrite ttl_of_set_Ttl. lia.
Qed.

(** X12: a message with at least one answer whose TTLs were forced in
    place to [t], not 0, is cached by [putMsgToCache] for exactly [t]
    seconds, and the cached copy carries the forced TTLs. *)
Theorem setMsgTTL_then_put (now : Z) (h : Heap) (c : LruCache) (key : string)
    (msg : loc) (o : Msg_ loc) (m : Msg) (t : Z) :
  msgs h !! msg = Some o ->
  load h msg = Some m ->
  NoDup (Answer o ++ Ns o ++ Extra o) ->
  Answer m <> [] ->
  is_u32 t ->
  t <> 0 ->
  exists h' h1 : Heap,
    setMsgTTLWithForce h msg t true = Some h' /\
    putMsgToCache now h' c key msg =
      Some (h1, SetWithExpire c key (length (msgs h')) (now + t * Second)) /\
    load h1 (length (msgs h')) = Some (setMsgTTL_by_value m t).
Proof.
  intros Hcell Hload Hnd Hne Hu Ht.
  destruct (setMsgTTLWithForce_inplace_spec h msg o m t true Hcell Hload Hnd)
    as (h' & Hrun & Hload').
  assert (minTTL (Answer (setMsgTTLWithForce_by_value m t true)) = t) as Hmin.
  { cbn [setMsgTTLWithForce_by_value Answer]. destruct (Answer m) as [|r rs]; [contradiction|].
    apply minTTL_forced. }
  destruct (put_positive now h' c key msg _ Hload') as (h1 & _ & Hread & _ & Hput).
  - cbn [setMsgTTLWithForce_by_value Answer setTTL_by_value]. apply Forall_fmap, Forall_forall.
    intros r _. unfold compose. now rewrite ttl_of_set_Ttl.
  - now rewrite Hmin.
  - rewrite Hmin in Hput. exists h', h1. repeat split; assumption.
Qed.

Lemma setMsgTTL_then_put_witness :
  exists h' h1 : Heap,
    setMsgTTLWithForce sample_heap 1%nat 30 true = Some h' /\
    putMsgToCache 0 h' empty_cache "k" 1%nat =
      Some (h1, mkLruCache 4 [mkEntry "k" 2%nat 30000000000]).
Proof.
  destruct (setMsgTTL_then_put 0 sample_heap empty_cache "k" 1%nat
              (mkMsg sample_hdr false [mkQuestion "example.com." 1 1]
                 [2]%nat [] [])
              (mkMsg sample_hdr false [mkQuestion "example.com." 1 1]
                 [rr_ttl 0] [] [])
              30 eq_refl eq_refl) as (h' & h1 & Hrun & Hput & _).
  - cbn [Answer Ns Extra app]. apply NoDup_singleton.
  - discriminate.
  - split; vm_compute; congruence.
  - discriminate.
  - exists h', h1. split; [exact Hrun|]. rewrite Hput.
    injection Hrun as <-. reflexivity.
Defined.

(** ** The empty answer *)

(** X13: the synthetic reply to a request carries the request's id and
    opcode, is a response with return code SUCCESS, authoritative and
    recursion-available, copies the recursion-desired and
    checking-disabled bits of a standard query, repeats the first question
    only, and has no record in any section.  It therefore counts as a
    winning reply in a race, and [putMsgToCache] never stores it. *)
Theorem handleMsgWithEmptyAnswer_reply (r : FullMsg) :
  let request := fst r in
  let msg := fst (handleMsgWithEmptyAnswer r) in
  let bits := snd (handleMsgWithEmptyAnswer r) in
  let query := Opcode (Hdr request) =? OpcodeQuery in
  Id (Hdr msg) = Id (Hdr request) /\
  Opcode (Hdr msg) = Opcode (Hdr request) /\
  Response (Hdr msg) = true /\
  Rcode (Hdr msg) = RcodeSuccess /\
  Authoritative (Hdr msg) = true /\
  RecursionAvailable (Hdr msg) = true /\
  Truncated (Hdr msg) = false /\
  RecursionDesired (Hdr msg) = (query && RecursionDesired (Hdr request)) /\
  CheckingDisabled bits = (query && CheckingDisabled (snd r)) /\
  Questions msg = take 1 (Questions request) /\
  Answer msg = [] /\ Ns msg = [] /\ Extra msg = [] /\
  acceptable msg = true /\
  (forall (now : Z) (h : Heap) (c : LruCache) (key : string) (p : loc),
     load h p = Some msg -> putMsgToCache now h c key p = Some (h, c)).
Proof.
  destruct r as [request rbits]. cbn zeta.
  unfold handleMsgWithEmptyAnswer, SetRcode, SetReply, zero_Msg.
  cbn [fst snd Hdr Compress Questions Answer Ns Extra Id Response Opcode
       Authoritative Truncated RecursionDesired RecursionAvailable Rcode
       CheckingDisabled Zero AuthenticatedData].
  repeat match goal with |- _ /\ _ => split end; try reflexivity.
  intros now h c key p Hload.
  unfold putMsgToCache, putMsgToCacheWithExpire. cbn [Z.eqb].
  rewrite (load_Answer_of_load h p _ Hload). reflexivity.
Qed.

(** ** Building the upstream clients *)

Lemma transform_loop (servers : list NameServer) (r : loc) (ret : list upstream) :
  fold_left
    (fun ret s =>
       if String.eqb (NS_Net s) "https" then
         ret ++ [DoHClient (NS_Addr s) (NS_Proxy s) r]
       else if String.eqb (NS_Net s) "dhcp" then
         ret ++ [DHCPClient (NS_Addr s)]
       else
         ret ++ [Client (NS_Net s) (NS_Addr s) (NS_Proxy s) (NS_Interface s)
                   (NS_IsDHCP s) r])
    servers ret =
  ret ++ transform servers r.
Proof.
  unfold transform. revert ret.
  induction servers as [|s servers IH]; intros ret; cbn [fold_left].
  - now rewrite app_nil_r.
  - rewrite IH.
    match goal with |- _ = ret ++ fold_left _ _ ?x => rewrite (IH x) end.
    destruct (String.eqb (NS_Net s) "https"); [|destruct (String.eqb (NS_Net s) "dhcp")];
      cbn [app]; now rewrite <- app_assoc.
Qed.

(** X14: [transform] builds exactly one client per server, in the order
    of the servers: the client at a position is a DoH client when that
    server's network is "https", a DHCP client when it is "dhcp", and a
    generic client for every other network; and the clients of a
    concatenated list are the clients of its parts, concatenated. *)
Theorem transform_per_server (servers : list NameServer) (r : loc) :
  length (transform servers r) = length servers /\
  (forall (i : nat) (s : NameServer),
     servers !! i = Some s ->
     transform servers r !! i =
     Some (if String.eqb (NS_Net s) "https" then DoHClient (NS_Addr s) (NS_Proxy s) r
           else if String.eqb (NS_Net s) "dhcp" then DHCPClient (NS_Addr s)
           else Client (NS_Net s) (NS_Addr s) (NS_Proxy s) (NS_Interface s)
                  (NS_IsDHCP s) r)) /\
  (forall more : list NameServer,
     transform (servers ++ more) r = transform servers r ++ transform more r).
Proof.
  assert (forall s rest, transform (s :: rest) r =
            (if String.eqb (NS_Net s) "https" then DoHClient (NS_Addr s) (NS_Proxy s) r
             else if String.eqb (NS_Net s) "dhcp" then DHCPClient (NS_Addr s)
             else Client (NS_Net s) (NS_Addr s) (NS_Proxy s) (NS_Interface s)
                    (NS_IsDHCP s) r) :: transform rest r) as Hcons.
  { intros s rest. unfold transform at 1. cbn [fold_left]. rewrite transform_loop.
    destruct (String.eqb (NS_Net s) "https"); [|destruct (String.eqb (NS_Net s) "dhcp")];
      reflexivity. }
  split; [|split].
  - induction servers as [|s servers IH]; [reflexivity|].
    rewrite Hcons. cbn [length]. now rewrite IH.
  - induction servers as [|s servers IH]; intros i s' Hi; [discriminate|].
    rewrite Hcons. destruct i as [|i]; cbn in Hi |- *.
    + now injection Hi as ->.
    + now apply IH.
  - intros more. induction servers as [|s servers IH]; [reflexivity|].
    cbn [app]. rewrite !Hcons, IH. reflexivity.
Qed.

Lemma transform_per_server_witness :
  transform [mkNameServer "https" "dns.example/dns-query" "Proxy" "" false;
             mkNameServer "dhcp" "en0" "" "" false;
             mkNameServer "tcp" "8.8.8.8:53" "" "eth0" false] 0%nat !! 1%nat =
  Some (DHCPClient "en0").
Proof.
  destruct (transform_per_server
              [mkNameServer "https" "dns.example/dns-query" "Proxy" "" false;
               mkNameServer "dhcp" "en0" "" "" false;
               mkNameServer "tcp" "8.8.8.8:53" "" "eth0" false] 0%nat)
    as (_ & Hat & _).
  exact (Hat 1%nat _ eq_refl).
Defined.

Lemma handleMsgWithEmptyAnswer_reply_witness :
  let reply := fst (handleMsgWithEmptyAnswer (sample_query, mkHdrBits false false true)) in
  let h := mkHeap [] [mkMsg (Hdr reply) false (Questions reply) [] [] []] in
  putMsgToCache 0 h empty_cache "k" 0%nat = Some (h, empty_cache).
Proof.
  intros reply h.
  destruct (handleMsgWithEmptyAnswer_reply (sample_query, mkHdrBits false false true))
    as (_ & _ & _ & _ & _ & _ & _ & _ & _ & _ & _ & _ & _ & _ & Hput).
  apply Hput. reflexivity.
Defined.

(** ** Addresses of an answer *)

Lemma msgToIP_omap (msg : Msg_ typedRR) :
  msgToIP msg = omap answer_ip (Answer msg).
Proof.
  unfold msgToIP.
  assert (forall answers acc,
             fold_left
               (fun ips answer =>
                  match answer with
                  | RR_AAAA _ aaaa =>
                      match AddrFromSlice aaaa with
                      | None => ips
                      | Some ip => ips ++ [ip]
                      end
                  | RR_A _ a =>
                      match AddrFromSlice a with
                      | None => ips
                      | Some ip => ips ++ [ip]
                      end
                  | RR_other _ => ips
                  end) answers acc = acc ++ omap answer_ip answers) as Hloop.
  { induction answers as [|a answers IH]; intros acc; cbn [fold_left].
    - now rewrite app_nil_r.
    - rewrite IH, omap_step. unfold answer_ip at 2, answer_slice.
      destruct a as [hdr s | hdr s | r]; try destruct (AddrFromSlice s);
        try reflexivity; now rewrite <- app_assoc. }
  apply (Hloop (Answer msg) []).
Qed.

Lemma msgToIPStr_omap (IP_String : list Z -> string) (msg : Msg_ typedRR) :
  msgToIPStr IP_String msg = map IP_String (omap answer_slice (Answer msg)).
Proof.
  unfold msgToIPStr.
  assert (forall answers acc,
             fold_left
               (fun ips answer =>
                  match answer with
                  | RR_AAAA _ aaaa =>
                      match aaaa with
                      | None => ips
                      | Some b => ips ++ [IP_String b]
                      end
                  | RR_A _ a =>
                      match a with
                      | None => ips
                      | Some b => ips ++ [IP_String b]
                      end
                  | RR_other _ => ips
                  end) answers acc =
             acc ++ map IP_String (omap answer_slice answers)) as Hloop.
  { induction answers as [|a answers IH]; intros acc; cbn [fold_left].
    - now rewrite app_nil_r.
    - rewrite IH, omap_step. unfold answer_slice at 2.
      destruct a as [hdr [b|] | hdr [b|] | r]; try reflexivity;
        cbn [map]; now rewrite <- app_assoc. }
  apply (Hloop (Answer msg) []).
Qed.



(** X16: on a message whose A and AAAA records all carry a 4-byte or a
    16-byte address, [msgToIPStr] lists exactly the addresses of
    [msgToIP], in the same order. *)
Theorem msgToIPStr_of_msgToIP (IP_String : list Z -> string) (msg : Msg_ typedRR) :
  Forall (fun answer =>
            match answer with
            | RR_A _ a | RR_AAAA _ a =>
                exists b, a = Some b /\ (length b = 4 \/ length b = 16)%nat
            | RR_other _ => True
            end) (Answer msg) ->
  msgToIPStr IP_String msg =
  map (fun ip => IP_String (addr_bytes ip)) (msgToIP msg).
Proof.
  rewrite msgToIP_omap, msgToIPStr_omap.
  induction 1 as [|a answers Ha _ IH]; [reflexivity|].
  rewrite !omap_step. unfold answer_ip at 1.
  assert (forall b, (length b = 4 \/ length b = 16)%nat ->
                    exists ip, AddrFromSlice (Some b) = Some ip /\ addr_bytes ip = b)
    as Hparse.
  { intros b [Hb | Hb]; unfold AddrFromSlice; rewrite Hb; eexists; split; reflexivity. }
  destruct a as [hdr a | hdr a | r]; cbn [answer_slice].
  - destruct Ha as (b & -> & Hb). destruct (Hparse b Hb) as (ip & -> & <-).
    cbn [map]. now rewrite IH.
  - destruct Ha as (b & -> & Hb). destruct (Hparse b Hb) as (ip & -> & <-).
    cbn [map]. now rewrite IH.
  - exact IH.
Qed.

Lemma msgToIPStr_of_msgToIP_witness :
  let msg := mkMsg sample_hdr false []
               [RR_A (mkRR_Header "example.com." 1 1 60 4) (Some [8; 8; 8; 8]);
                RR_other (rr_ttl 60)] [] [] in
  msgToIP msg = [AddrFrom4 [8; 8; 8; 8]] /\
  msgToIPStr (fun _ => "8.8.8.8"%string) msg = ["8.8.8.8"%string].
Proof.
  intros msg. split; [reflexivity|].
  rewrite (msgToIPStr_of_msgToIP (fun _ => "8.8.8.8"%string) msg); [reflexivity|].
  apply Forall_cons. split; [exists [8; 8; 8; 8]; split; [reflexivity | now left]|].
  apply Forall_cons. split; [exact I | apply Forall_nil_2].
Defined.

(** A non-nil slice of another length is printed by [msgToIPStr] and
    skipped by [msgToIP]. *)
Example msgToIP_odd_length :
  let msg := mkMsg sample_hdr false []
               [RR_A (mkRR_Header "example.com." 1 1 60 2) (Some [8; 8])] [] [] in
  msgToIP msg = [] /\ length (msgToIPStr (fun _ => "?0808"%string) msg) = 1%nat.
Proof. split; reflexivity. Qed.

(** ** The connection dialer: the remaining paths *)

(** X17: a UDP dial through a registered proxy with UDP support opens
    one packet channel through that proxy, to the destination, and does
    nothing else, whatever the policy flag is: a failure of the proxy is
    returned as it is, and a channel is returned wrapped, with the
    destination as its remote address. *)
Theorem dial_udp_supported (env : Env) (dstIP : Addr) (port name : string)
    (opts : list dialerOption) (proxy : Proxy) :
  FindProxyByName env name = Some proxy ->
  SupportUDP proxy = true ->
  let metadata := mkMetadata UDP "" dstIP port in
  let '(events, r) := dialContextByProxyOrInterface env "udp" dstIP port name opts in
  events = [EvListenPacket (proxy_Name proxy) metadata opts] /\
  match ListenPacketContext proxy metadata opts with
  | inl packetConn => r = inl (wrapPacketConn packetConn (dstIP, port))
  | inr err => r = inr err
  end.
Proof.
  intros Hfind Hudp. unfold dialContextByProxyOrInterface.
  rewrite Hfind. simpl. rewrite Hudp. simpl.
  destruct (ListenPacketContext proxy _ opts) as [pc | err]; simpl;
    split; reflexivity.
Qed.

Lemma dial_udp_supported_witness :
  dialContextByProxyOrInterface relay_env "udp" sample_addr "53" "Relay" [] =
  ([EvListenPacket "Relay" (mkMetadata UDP "" sample_addr "53") []],
   inl (wrapPacketConn (mkPacketConn 7) (sample_addr, "53"%string))).
Proof.
  pose proof (dial_udp_supported relay_env sample_addr "53" "Relay" [] udp_proxy
                eq_refl eq_refl) as H.
  cbv zeta in H.
  destruct (dialContextByProxyOrInterface relay_env "udp" sample_addr "53"
              "Relay" []) as [events r].
  destruct H as [-> H]. cbn in H. now rewrite H.
Defined.

(** X18: through a registered proxy every network other than "udp",
    also "udp4" or "udp6", is dialed as a stream: one [DialContext] of the
    proxy with TCP metadata for the destination, whose result is returned
    as it is; neither the proxy's UDP support nor the policy flag is
    looked at. *)
Theorem dial_proxy_stream (env : Env) (network : string) (dstIP : Addr)
    (port name : string) (opts : list dialerOption) (proxy : Proxy) :
  FindProxyByName env name = Some proxy ->
  network <> "udp"%string ->
  dialContextByProxyOrInterface env network dstIP port name opts =
  ([EvProxyDial (proxy_Name proxy) (mkMetadata TCP "" dstIP port) opts],
   proxy_DialContext proxy (mkMetadata TCP "" dstIP port) opts).
Proof.
  intros Hfind Hnet. unfold dialContextByProxyOrInterface. rewrite Hfind.
  apply String.eqb_neq in Hnet. rewrite Hnet. reflexivity.
Qed.

Lemma dial_proxy_stream_witness :
  dialContextByProxyOrInterface (sample_env true) "udp4" sample_addr "53" "Proxy" [] =
  ([EvProxyDial "Proxy" (mkMetadata TCP "" sample_addr "53") []], inl (netConn 1)).
Proof.
  rewrite (dial_proxy_stream (sample_env true) "udp4" sample_addr "53" "Proxy" []
             tcp_only_proxy eq_refl); [reflexivity | discriminate].
Defined.

(** X19: in every case the dialer makes at most one dial, and none only
    when it fails; a name the registry knows is never dialed directly,
    and for a name it does not know no proxy is used. *)
Theorem dial_at_most_once (env : Env) (network : string) (dstIP : Addr)
    (port name : string) (opts : list dialerOption) :
  let '(events, r) :=
    dialContextByProxyOrInterface env network dstIP port name opts in
  (length (List.filter is_dial events) <= 1)%nat /\
  (List.filter is_dial events = [] -> exists err, r = inr err) /\
  Forall (fun ev =>
            match ev with
            | EvDial _ _ _ => FindProxyByName env name = None
            | EvProxyDial p _ _ | EvListenPacket p _ _ =>
                exists proxy, FindProxyByName env name = Some proxy /\
                              p = proxy_Name proxy
            | EvLogDebug _ _ => True
            end) events.
Proof.
  unfold dialContextByProxyOrInterface.
  destruct (FindProxyByName env name) as [proxy|] eqn:Hfind.
  - destruct (String.eqb network "udp").
    + destruct (SupportUDP proxy); cbn [negb].
      * cbn. destruct (ListenPacketContext proxy _ opts); cbn;
          (split; [lia|]); (split; [discriminate|]); repeat constructor; eauto.
      * destruct (UDPFallbackMatch env); cbn.
        -- split; [lia|]. split; [eauto|]. constructor.
        -- split; [lia|]. split; [discriminate|]. repeat constructor; eauto.
    + cbn. split; [lia|]. split; [discriminate|]. repeat constructor; eauto.
  - cbn. destruct (dialer_DialContext env network _ _); cbn;
      (split; [lia|]); (split; [discriminate|]); repeat constructor.
Qed.

(** ** Stream connections *)

(** X20: when the context names a proxy and the host part of the address
    is not an IP address, [getTCPConn] returns the parse error and does
    nothing: no dial, no keep-alive. *)
Theorem getTCPConn_bad_host (env : Env) (lib : NetLib) (proxy addr : string)
    (err1 : error) :
  ParseAddr lib (fst (SplitHostPort lib addr)) = inr err1 ->
  getTCPConn env lib (Some proxy) addr = ([], inr err1).
Proof.
  intros Hparse. unfold getTCPConn.
  destruct (SplitHostPort lib addr) as [host port]. cbn [fst] in Hparse.
  now rewrite Hparse.
Qed.

Lemma getTCPConn_bad_host_witness :
  getTCPConn relay_env sample_lib (Some "Relay"%string) "dns.example:53" =
  ([], inr (errorString "unable to parse IP")).
Proof. apply getTCPConn_bad_host. reflexivity. Defined.

Lemma dial_tcp_events (env : Env) (dstIP : Addr) (port name : string) :
  Forall (fun ev =>
            match ev with
            | EvDial n _ _ => n = "tcp"%string
            | EvProxyDial _ md _ => NetWork md = TCP
            | EvListenPacket _ _ _ => False
            | EvLogDebug _ _ => True
            end)
    (fst (dialContextByProxyOrInterface env "tcp" dstIP port name [])).
Proof.
  unfold dialContextByProxyOrInterface.
  destruct (FindProxyByName env name) as [proxy|]; cbn.
  - repeat constructor.
  - destruct (dialer_DialContext env _ _ _); cbn; repeat constructor.
Qed.

(** X21: [getTCPConn] only ever dials streams: a direct dial is on
    network "tcp", a dial through a proxy carries TCP metadata, and no
    packet channel is opened, also through a proxy that has UDP
    support.  Keep-alive is switched on exactly when the dial
    succeeded with a TCP connection, on that connection, and never after a
    failure. *)
Theorem getTCPConn_stream_only (env : Env) (lib : NetLib) (proxy : option string)
    (addr : string) :
  let '(events, r) := getTCPConn env lib proxy addr in
  Forall (fun ev =>
            match ev with
            | Dialing (EvDial n _ _) => n = "tcp"%string
            | Dialing (EvProxyDial _ md _) => NetWork md = TCP
            | Dialing (EvListenPacket _ _ _) => False
            | Dialing (EvLogDebug _ _) => True
            | SetKeepAlive c on => on = true /\ r = inl c /\ is_TCPConn lib c = true
            end) events /\
  (forall c : Conn, r = inl c -> is_TCPConn lib c = true ->
                    SetKeepAlive c true ∈ events) /\
  (forall err : error, r = inr err ->
                       forall c on, SetKeepAlive c on ∉ events).
Proof.
  unfold getTCPConn.
  assert (forall events : list Event,
             Forall (fun ev =>
                       match ev with
                       | EvDial n _ _ => n = "tcp"%string
                       | EvProxyDial _ md _ => NetWork md = TCP
                       | EvListenPacket _ _ _ => False
                       | EvLogDebug _ _ => True
                       end) events ->
             forall r : Conn + error,
               let '(tevents, r') :=
                 match r with
                 | inl conn =>
                     (map Dialing events ++
                        (if is_TCPConn lib conn then [SetKeepAlive conn true] else []),
                      inl conn)
                 | inr err => (map Dialing events, (inr err : Conn + error))
                 end in
               Forall (fun ev =>
                         match ev with
                         | Dialing (EvDial n _ _) => n = "tcp"%string
                         | Dialing (EvProxyDial _ md _) => NetWork md = TCP
                         | Dialing (EvListenPacket _ _ _) => False
                         | Dialing (EvLogDebug _ _) => True
                         | SetKeepAlive c on =>
                             on = true /\ r' = inl c /\ is_TCPConn lib c = true
                         end) tevents /\
               (forall c : Conn, r' = inl c -> is_TCPConn lib c = true ->
                                 SetKeepAlive c true ∈ tevents) /\
               (forall err : error, r' = inr err ->
                                    forall c on, SetKeepAlive c on ∉ tevents))
    as Hafter.
  { intros events Hev [conn | err].
    - split; [|split].
      + apply Forall_app. split.
        * apply Forall_fmap. eapply Forall_impl; [exact Hev|].
          intros [] H; exact H.
        * destruct (is_TCPConn lib conn) eqn:Htcp; repeat constructor. exact Htcp.
      + intros c Hc Htcp. injection Hc as <-. rewrite Htcp.
        apply elem_of_app. right. left.
      + intros e He. discriminate.
    - split; [|split].
      + apply Forall_fmap. eapply Forall_impl; [exact Hev|].
        intros [] H; exact H.
      + intros c Hc. discriminate.
      + intros e _ c on Hin. apply list_elem_of_fmap in Hin as (ev & Hev' & _).
        discriminate. }
  destruct proxy as [proxy|].
  - destruct (SplitHostPort lib addr) as [host port].
    destruct (ParseAddr lib host) as [ip | err1].
    + pose proof (dial_tcp_events env ip port proxy) as Hev.
      destruct (dialContextByProxyOrInterface env "tcp" ip port proxy [])
        as [events r]. exact (Hafter events Hev r).
    + split; [constructor|]. split; [discriminate|].
      intros e _ c on Hin. now apply elem_of_nil in Hin.
  - unfold dial.
    apply (Hafter [EvDial "tcp" addr []]). repeat constructor.
Qed.

Lemma dial_at_most_once_witness :
  dialContextByProxyOrInterface (sample_env true) "udp" sample_addr "53" "Proxy" [] =
  ([], inr (errorString "proxy Proxy UDP is not supported")).
Proof.
  pose proof (dial_at_most_once (sample_env true) "udp" sample_addr "53" "Proxy" [])
    as H.
  destruct (dialContextByProxyOrInterface (sample_env true) "udp" sample_addr
              "53" "Proxy" []) as [events r] eqn:Hrun.
  destruct H as (_ & Hnone & _).
  injection Hrun as <- <-. destruct (Hnone eq_refl) as [err Herr]. reflexivity.
Defined.

Lemma getTCPConn_stream_only_witness :
  getTCPConn relay_env sample_lib (Some "Relay"%string) "8.8.8.8:53" =
  ([Dialing (EvProxyDial "Relay" (mkMetadata TCP "" sample_addr "53") []);
    SetKeepAlive (netConn 2) true],
   inl (netConn 2)).
Proof.
  pose proof (getTCPConn_stream_only relay_env sample_lib (Some "Relay"%string)
                "8.8.8.8:53") as H.
  destruct (getTCPConn relay_env sample_lib (Some "Relay"%string) "8.8.8.8:53")
    as [events r] eqn:Hrun.
  destruct H as (_ & Hon & _).
  injection Hrun as <- <-. pose proof (Hon (netConn 2) eq_refl eq_refl) as Hin.
  reflexivity.
Defined.

(** ** The racing resolver: further properties *)

Lemma first_winner_found (ctx : Context) (m : Msg) (done : list dnsClient)
    (mm : Msg) :
  first_winner ctx m done = Some mm ->
  exists r : dnsClient, r ∈ done /\ winning ctx m r = Some mm.
Proof.
  induction done as [|r done IH]; [discriminate|].
  rewrite first_winner_cons. destruct (winning ctx m r) as [mm'|] eqn:Hw.
  - intros H. injection H as <-. exists r. split; [left | exact Hw].
  - intros H. destruct (IH H) as (r' & Hin & Hw'). exists r'. split; [now right | exact Hw'].
Qed.

Lemma first_winner_none (ctx : Context) (m : Msg) (done : list dnsClient) :
  first_winner ctx m done = None <->
  Forall (fun r => winning ctx m r = None) done.
Proof.
  induction done as [|r done IH]; [split; [constructor | reflexivity]|].
  rewrite first_winner_cons, Forall_cons.
  destruct (winning ctx m r) as [mm|]; [split; [discriminate | intros [H _]; discriminate]|].
  rewrite IH. tauto.
Qed.

(** X22: [batchExchange] returns either a message and no error or an
    error and no message.  A returned message is the reply of one of the
    clients that completed, with a return code other than SERVER-FAILURE
    and REFUSED; an error is returned only when every completed attempt
    failed or was rejected. *)
Theorem batchExchange_result (ctx : Context) (clients : list dnsClient) (m : Msg)
    (order : list nat) :
  match batchExchange ctx clients m order with
  | (Some mm, None) =>
      Rcode (Hdr mm) <> RcodeServerFailure /\ Rcode (Hdr mm) <> RcodeRefused /\
      exists r : dnsClient,
        r ∈ completion clients order /\ ExchangeContext r ctx m = inl mm
  | (None, Some err) =>
      Forall (fun r =>
                match ExchangeContext r ctx m with
                | inl mm => Rcode (Hdr mm) = RcodeServerFailure \/
                            Rcode (Hdr mm) = RcodeRefused
                | inr _ => True
                end) (completion clients order)
  | _ => False
  end.
Proof.
  rewrite batchExchange_message.
  destruct (first_winner ctx m (completion clients order)) as [mm|] eqn:Hfirst.
  - destruct (first_winner_found _ _ _ _ Hfirst) as (r & Hin & Hw).
    apply winning_iff in Hw as (Hr & Hsf & Hrf). eauto.
  - apply first_winner_none in Hfirst.
    eapply Forall_impl; [exact Hfirst|]. intros r Hr. now apply not_winning_iff.
Qed.

(** X23: whether a race ends with a message does not depend on the order
    in which the attempts complete: two runs over the same attempts either
    both return a message or both return the error. *)
Theorem batchExchange_order (ctx : Context) (clients : list dnsClient) (m : Msg)
    (order1 order2 : list nat) :
  order1 ≡ₚ order2 ->
  (fst (batchExchange ctx clients m order1) = None <->
   fst (batchExchange ctx clients m order2) = None).
Proof.
  intros Hperm.
  assert (forall order,
             fst (batchExchange ctx clients m order) = None <->
             Forall (fun r => winning ctx m r = None) (completion clients order))
    as Hnone.
  { intros order. rewrite batchExchange_message, <- first_winner_none.
    destruct (first_winner ctx m (completion clients order));
      split; intros H; try discriminate; reflexivity. }
  rewrite !Hnone. unfold completion. now rewrite Hperm.
Qed.

Lemma batchExchange_order_witness :
  fst (batchExchange (mkContext None)
         [refusing_client; broken_client; answering_client] sample_query
         [2; 1; 0]%nat) <> None.
Proof.
  intros Hnone.
  apply (batchExchange_order (mkContext None)
           [refusing_client; broken_client; answering_client] sample_query
           [2; 1; 0]%nat [0; 1; 2]%nat) in Hnone.
  - discriminate.
  - apply Permutation_sym.
    etransitivity; [apply perm_skip, Permutation_swap|].
    etransitivity; [apply Permutation_swap|].
    apply perm_skip, Permutation_swap.
Defined.

(** ** Cache keys: questions *)

Lemma string_app_assoc (a b c : string) : ((a ++ b) ++ c = a ++ b ++ c)%string.
Proof. induction a as [|x a IH]; simpl; [reflexivity | now rewrite IH]. Qed.

Lemma string_app_inv_head (p a b : string) : (p ++ a = p ++ b)%string -> a = b.
Proof.
  induction p as [|x p IH]; simpl; [auto|]. intros H. injection H as H. auto.
Qed.

Lemma has_colon_app (a b : string) :
  has_colon (a ++ String ":"%char b) = true.
Proof.
  induction a as [|x a IH]; simpl; [reflexivity|].
  rewrite IH. apply orb_true_r.
Qed.

(** A field without colons after the last colon is cut off uniquely. *)
Lemma split_last_field (a1 a2 d1 d2 : string) :
  has_colon d1 = false -> has_colon d2 = false ->
  (a1 ++ ":" ++ d1 = a2 ++ ":" ++ d2)%string ->
  a1 = a2 /\ d1 = d2.
Proof.
  intros H1 H2. revert a2.
  induction a1 as [|x a1 IH]; intros [|y a2] Heq; simpl in Heq.
  - injection Heq as ->. auto.
  - injection Heq as <- Heq. subst d1. now rewrite has_colon_app in H1.
  - injection Heq as -> Heq. subst d2. now rewrite has_colon_app in H2.
  - injection Heq as -> Heq. destruct (IH _ Heq) as [-> ->]. auto.
Qed.

Lemma string_of_uint_no_colon (d : Decimal.uint) :
  has_colon (NilEmpty.string_of_uint d) = false.
Proof. induction d; simpl; auto. Qed.

Lemma fmt_d_no_colon (n : Z) : has_colon (fmt_d n) = false.
Proof. apply string_of_uint_no_colon. Qed.

Lemma fmt_d_inj (n n' : Z) : 0 <= n -> 0 <= n' -> fmt_d n = fmt_d n' -> n = n'.
Proof.
  unfold fmt_d. intros Hn Hn' Heq.
  apply (f_equal NilEmpty.uint_of_string) in Heq.
  rewrite !NilEmpty.usu in Heq. injection Heq as Heq.
  apply Unsigned.to_uint_inj in Heq. now apply Z2N.inj.
Qed.

(** X24: under one selected proxy, or none, two different questions
    never get the same key: the key determines name, type and class. *)
Theorem genMsgCacheKey_question_inj (ctx : Context) (q1 q2 : Question) :
  0 <= Qtype q1 -> 0 <= Qclass q1 -> 0 <= Qtype q2 -> 0 <= Qclass q2 ->
  genMsgCacheKey ctx q1 = genMsgCacheKey ctx q2 ->
  q1 = q2.
Proof.
  intros Ht1 Hc1 Ht2 Hc2 Heq.
  assert (genMsgCacheKey (mkContext None) q1 = genMsgCacheKey (mkContext None) q2)
    as Hq.
  { destruct ctx as [[proxy|]]; [|exact Heq].
    destruct (String.eqb_spec proxy ""%string) as [-> | Hne]; [exact Heq|].
    rewrite !(genMsgCacheKey_present _ proxy Hne) in Heq.
    apply string_app_inv_head in Heq. simpl in Heq. now injection Heq. }
  rewrite !genMsgCacheKey_absent in Hq.
  assert (forall n t c : string,
             (n ++ ":" ++ t ++ ":" ++ c = (n ++ ":" ++ t) ++ ":" ++ c)%string)
    as Hassoc by (intros; now rewrite string_app_assoc).
  rewrite !Hassoc in Hq.
  apply split_last_field in Hq as [Hq Hc]; try apply fmt_d_no_colon.
  apply split_last_field in Hq as [Hn Ht]; try apply fmt_d_no_colon.
  apply fmt_d_inj in Hc; try assumption. apply fmt_d_inj in Ht; try assumption.
  destruct q1, q2. simpl in *. now subst.
Qed.

Lemma genMsgCacheKey_question_inj_witness :
  genMsgCacheKey (mkContext None) (mkQuestion "example.com." 1 1) <>
  genMsgCacheKey (mkContext None) (mkQuestion "example.com." 28 1).
Proof.
  intros Heq. apply genMsgCacheKey_question_inj in Heq;
    [discriminate | vm_compute; congruence ..].
Defined.

(** Under different selections keys can meet: a name with a colon under
    no proxy against a plain name under a proxy. *)
Example genMsgCacheKey_across_proxies :
  genMsgCacheKey (mkContext (Some "a"%string)) (mkQuestion "b" 1 1) =
  genMsgCacheKey (mkContext None) (mkQuestion "a:b" 1 1).
Proof. reflexivity. Qed.

(** ** Rule types *)

Lemma RuleType_String_unknown (rt : Z) :
  rt < 0 \/ 16 < rt -> constant.RuleType_String rt = "Unknown"%string.
Proof.
  intros Hout. unfold constant.RuleType_String.
  repeat (match goal with
          | |- context [?a =? ?b] =>
              destruct (Z.eqb_spec a b) as [Heq | _];
              [exfalso; revert Heq;
               unfold constant.Domain, constant.DomainSuffix, constant.DomainKeyword,
                 constant.GEOSITE, constant.GEOIP, constant.IPCIDR,
                 constant.SrcIPCIDR, constant.SrcPort, constant.DstPort,
                 constant.InboundPort, constant.Process, constant.ProcessPath,
                 constant.Script, constant.UserAgent, constant.IPSet,
                 constant.MATCH, constant.Group; lia|]
          end).
  reflexivity.
Qed.

Lemma RuleType_range (rt : Z) :
  (rt < 0 \/ 16 < rt) \/
  In rt [0; 1; 2; 3; 4; 5; 6; 7; 8; 9; 10; 11; 12; 13; 14; 15; 16].
Proof. cbn [In]. lia. Qed.

(** X25: the seventeen declared rule types have seventeen different
    names, none of them "Unknown", and every other value is named
    "Unknown": the name of a declared rule type identifies it. *)
Theorem RuleType_String_inj (a b : Z) :
  (constant.RuleType_String a = "Unknown"%string <-> a < 0 \/ 16 < a) /\
  (constant.RuleType_String a = constant.RuleType_String b ->
   a = b \/ ((a < 0 \/ 16 < a) /\ (b < 0 \/ 16 < b))).
Proof.
  split.
  - split; [|apply RuleType_String_unknown].
    destruct (RuleType_range a) as [Ha | Ha]; [auto|].
    cbn [In] in Ha. intros H.
    repeat (destruct Ha as [<- | Ha]; [vm_compute in H; discriminate|]).
    contradiction.
  - destruct (RuleType_range a) as [Ha | Ha];
      destruct (RuleType_range b) as [Hb | Hb]; [auto|..].
    + rewrite (RuleType_String_unknown a Ha). cbn [In] in Hb. intros H.
      repeat (destruct Hb as [<- | Hb]; [vm_compute in H; discriminate|]).
      contradiction.
    + rewrite (RuleType_String_unknown b Hb). cbn [In] in Ha. intros H.
      repeat (destruct Ha as [<- | Ha]; [vm_compute in H; discriminate|]).
      contradiction.
    + cbn [In] in Ha, Hb. intros H. left.
      repeat (destruct Ha as [<- | Ha];
              [repeat (destruct Hb as [<- | Hb];
                       [first [reflexivity | vm_compute in H; discriminate]|]);
               contradiction|]).
      contradiction.
Qed.

Lemma RuleType_String_inj_witness :
  constant.RuleType_String constant.GEOIP <> constant.RuleType_String constant.GEOSITE.
Proof.
  intros H. destruct (RuleType_String_inj constant.GEOIP constant.GEOSITE) as [_ Hinj].
  destruct (Hinj H) as [Heq | [[Hlo | Hhi] _]]; [discriminate | |];
    vm_compute in *; congruence.
Defined.
